(** * RAG chat application: the browser clients and the retrieval core

    The first half of this file embeds the TypeScript sources of the front end:
    - [services/statelessApi.ts]  ([StatelessAPIClient] and its wrapper),
    - [services/api.ts]           ([ApiClient]),
    - [components/PDFUpload.tsx]  ([PDFUpload.handleFileUpload]),
    - [components/ChatInterface.tsx] ([ChatInterface.handleSubmit]).

    The retrieval core (chunker, retriever, session store, answer
    synthesizer) runs on the server; module [Core] models it from the
    specification.  Definitions come first, the theorems follow. *)

From Stdlib Require Import String Ascii List ZArith QArith Lia Bool.
From Stdlib Require Import Sorted Permutation.
From stdpp Require Import base gmap strings list pretty.

(** ** JavaScript strings

    A string is a sequence of characters; only the [String.prototype]
    methods that the clients call are modelled. *)

Module Js.

Definition newline : ascii := "010"%char.

(** White space and line terminators among the code units below 256,
    the ones [trim] strips: TAB, LF, VT, FF, CR, SPACE and NBSP. *)
Definition is_whitespace (c : ascii) : bool :=
  let n := N_of_ascii c in
  ((9 <=? n)%N && (n <=? 13)%N) || (n =? 32)%N || (n =? 160)%N.

Fixpoint trimStart (s : string) : string :=
  match s with
  | EmptyString => EmptyString
  | String c s' => if is_whitespace c then trimStart s' else s
  end.

Fixpoint trimEnd (s : string) : string :=
  match s with
  | EmptyString => EmptyString
  | String c s' =>
      match trimEnd s' with
      | EmptyString => if is_whitespace c then EmptyString else String c EmptyString
      | t => String c t
      end
  end.

(** [s.trim()] *)
Definition trim (s : string) : string := trimEnd (trimStart s).

(** [s.startsWith(p)] *)
Definition startsWith (p s : string) : bool := String.prefix p s.

(** [s.slice(n)] for a non-negative [n]. *)
Fixpoint slice (n : nat) (s : string) : string :=
  match n, s with
  | O, _ => s
  | S n', String _ s' => slice n' s'
  | S _, EmptyString => EmptyString
  end.

(** [s.split('\n')]: never empty, ["a\n"] gives [["a"; ""]]. *)
Fixpoint split_nl (s : string) : list string :=
  match s with
  | EmptyString => [EmptyString]
  | String c s' =>
      if Ascii.eqb c newline then EmptyString :: split_nl s'
      else match split_nl s' with
           | h :: t => String c h :: t
           | [] => [String c EmptyString]
           end
  end.

(** The text that a list of pieces spells. *)
Definition concat (pieces : list string) : string := foldr String.append EmptyString pieces.

(** Truthiness of a string: [""] is falsy. *)
Definition truthy (s : string) : bool := negb (String.eqb s "").

(** [lines.pop() || ''] together with what is left in [lines]. *)
Definition pop (lines : list string) : list string * string :=
  (removelast lines, List.last lines ""%string).

End Js.

(** ** [types/api.ts] *)

Inductive Role := user | assistant.

Record ChatSource := {
  src_page : Z;
  src_chunk_id : string;
  src_content : string;
  src_relevance_score : Q;
}.

Record ChatMessage := {
  msg_role : Role;
  msg_content : string;
  msg_sources : option (list ChatSource);
}.

Record ChatRequest := {
  cr_file_id : string;
  cr_message : string;
  cr_history : list ChatMessage;
}.

Record ChatResponse := {
  resp_message : string;
  resp_sources : list ChatSource;
}.

(** [StreamEvent]: the [type] field is whatever the wire carried, the
    clients cast the parsed JSON without checking it. *)
Record StreamEvent := {
  ev_type : string;
  ev_content : option string;
  ev_sources : option (list ChatSource);
}.

Record File := {
  file_name : string;
  file_type : string;
  file_size : Z;
}.

(** A JavaScript [Error], identified by its message. *)
Record Error := { error_message : string }.

(** The settled state of a promise returned by an [async] method. *)
Inductive Promise (A : Type) :=
| Resolved (a : A)
| Rejected (e : Error).
Arguments Resolved {A} a.
Arguments Rejected {A} e.

(** ** [services/statelessApi.ts]: payload types *)

Record ChunkMetadata := {
  meta_page : Z;
  meta_chunk_index : Z;
  meta_total_chunks : Z;
}.

Record ProcessedPDF := {
  file_id : string;
  filename : string;
  page_count : Z;
  chunk_count : Z;
  chunks : list string;
  embeddings : list (list Q);
  chunk_metadata : list ChunkMetadata;
}.

Record StatelessChatRequest := {
  req_message : string;
  req_chunks : list string;
  req_embeddings : list (list Q);
  req_chunk_metadata : list ChunkMetadata;
  req_history : list ChatMessage;
}.

(** ** The network, as the clients see it *)

(** Requests a client hands to [axios] or [fetch]. *)
Inductive HttpRequest :=
| POST_stateless_upload_process (file : File) (apiKey : string)
| POST_stateless_chat_stateless (request : StatelessChatRequest) (apiKey : string)
| POST_stateless_chat_stateless_stream (request : StatelessChatRequest) (apiKey : string)
| POST_upload_pdf (file : File) (apiKey : string)
| GET_upload_pdf_status (fileId : string) (apiKey : string)
| POST_chat_message (request : ChatRequest) (apiKey : string)
| POST_chat_stream (request : ChatRequest) (apiKey : string).

(** What an [async] method did: the requests it issued, in order, and how
    its promise settled. *)
Record Run (A : Type) := {
  issued : list HttpRequest;
  settled : Promise A;
}.
Arguments issued {A} r.
Arguments settled {A} r.

(** A streamed response body: the texts that successive [reader.read()]
    calls decode, then either the end of the stream ([None]) or a
    rejected read. *)
Record StreamBody := {
  body_chunks : list string;
  body_failure : option Error;
}.

(** How [fetch] settles. *)
Inductive FetchOutcome :=
| FetchRejected (e : Error)
| FetchResponse (ok : bool) (status : N) (body : option StreamBody).

(** Calls made on the three callbacks of [streamChat]. *)
Inductive Callback :=
| onMessage (event : StreamEvent)
| onError (error : Error)
| onComplete.

(** The caller of [streamChat] holds the abort function that the call
    returns.  It may invoke it from inside one of its callbacks
    ([abort_in_callback], given the callbacks received so far, the current
    one included) or from another task while the client waits for the
    network ([abort_while_pending]). *)
Record Caller := {
  abort_in_callback : list Callback -> bool;
  abort_while_pending : list Callback -> bool;
}.

(** Never aborts. *)
Definition patient : Caller :=
  {| abort_in_callback := fun _ => false; abort_while_pending := fun _ => false |}.

(** The state of one streamed call: the callbacks made so far and the
    flag of its [AbortController]. *)
Record Stream := {
  delivered : list Callback;
  aborted : bool;
}.

Definition start : Stream := {| delivered := []; aborted := false |}.

Section Streaming.

Variable caller : Caller.

(** Invoke a callback; the caller may abort while it runs. *)
Definition deliver (cb : Callback) (st : Stream) : Stream :=
  let d := delivered st ++ [cb] in
  {| delivered := d; aborted := aborted st || abort_in_callback caller d |}.

(** Suspend on [await]; the caller may abort meanwhile. *)
Definition await (st : Stream) : Stream :=
  {| delivered := delivered st;
     aborted := aborted st || abort_while_pending caller (delivered st) |}.

(** A [catch] handler guarded by [!abortController.signal.aborted]. *)
Definition catch (error : Error) (st : Stream) : Stream :=
  if aborted st then st else deliver (onError error) st.

End Streaming.

(** ** [services/statelessApi.ts]: [class StatelessAPIClient] *)

Module StatelessAPIClient.

(** The object holds [storedPDFData: Map<string, ProcessedPDF>]; the copy
    kept in [sessionStorage] is written after each upload and is restored
    into the same map. *)
Record t := { storedPDFData : gmap string ProcessedPDF }.

Definition not_found : Error :=
  {| error_message := "PDF data not found. Please re-upload the PDF." |}.

(** [uploadAndProcessPDF], given how the POST settles. *)
Definition uploadAndProcessPDF (this : t) (file : File) (apiKey : string)
    (response : Promise ProcessedPDF) : t * Run ProcessedPDF :=
  let sent := [POST_stateless_upload_process file apiKey] in
  match response with
  | Resolved data =>
      ({| storedPDFData := <[file_id data := data]> (storedPDFData this) |},
       {| issued := sent; settled := Resolved data |})
  | Rejected e => (this, {| issued := sent; settled := Rejected e |})
  end.

Definition getPDFData (this : t) (fileId : string) : option ProcessedPDF :=
  storedPDFData this !! fileId.

(** The request both chat methods build from the retained payload. *)
Definition build_request (pdfData : ProcessedPDF) (message : string)
    (history : list ChatMessage) : StatelessChatRequest :=
  {| req_message := message;
     req_chunks := chunks pdfData;
     req_embeddings := embeddings pdfData;
     req_chunk_metadata := chunk_metadata pdfData;
     req_history := history |}.

(** [sendMessage], given how the POST would settle. *)
Definition sendMessage (this : t) (fileId message : string)
    (history : list ChatMessage) (apiKey : string)
    (post : HttpRequest -> Promise ChatResponse) : Run ChatResponse :=
  match storedPDFData this !! fileId with
  | None => {| issued := []; settled := Rejected not_found |}
  | Some pdfData =>
      let request := build_request pdfData message history in
      let call := POST_stateless_chat_stateless request apiKey in
      {| issued := [call]; settled := post call |}
  end.

Section Stream.

(** [JSON.parse(data) as StreamEvent]; [None] when it throws. *)
Variable JSON_parse : string -> option StreamEvent.
Variable caller : Caller.

(** The body of [for (const line of lines)]; the flag tells that
    [readStream] returned ([data === '[DONE]']). *)
Fixpoint forLines (lines : list string) (st : Stream) : Stream * bool :=
  match lines with
  | [] => (st, false)
  | line :: rest =>
      let trimmedLine := Js.trim line in
      if Js.startsWith "data: " trimmedLine then
        let data := Js.slice 6 trimmedLine in
        if String.eqb data "[DONE]" then (deliver caller onComplete st, true)
        else if Js.truthy data then
          match JSON_parse data with
          | Some event => forLines rest (deliver caller (onMessage event) st)
          | None => forLines rest st
          end
        else forLines rest st
      else forLines rest st
  end.

(** [readStream]: one iteration of [while (true)] per element of
    [chunks].  A read on an aborted request rejects and the [catch]
    stays silent. *)
Fixpoint readStream (chunks : list string) (failure : option Error)
    (st : Stream) : Stream :=
  let st := await caller st in
  if aborted st then st
  else match chunks with
       | [] =>
           match failure with
           | None => deliver caller onComplete st
           | Some e => deliver caller (onError e) st
           end
       | chunk :: more =>
           let '(st', returned) := forLines (Js.split_nl chunk) st in
           if returned then st' else readStream more failure st'
       end.

(** The [.then] and [.catch] behind [fetch]. *)
Definition afterFetch (outcome : FetchOutcome) : Stream :=
  let st := await caller start in
  if aborted st then st
  else match outcome with
       | FetchRejected e => catch caller e st
       | FetchResponse ok status body =>
           if negb ok then
             catch caller {| error_message := "HTTP error! status: " +:+ pretty status |} st
           else match body with
                | None => catch caller {| error_message := "No response body" |} st
                | Some b => readStream (body_chunks b) (body_failure b) st
                end
       end.

(** [streamChat]: the requests issued and the callbacks made. *)
Definition streamChat (this : t) (fileId message : string)
    (history : list ChatMessage) (apiKey : string)
    (outcome : FetchOutcome) : list HttpRequest * list Callback :=
  match storedPDFData this !! fileId with
  | None => ([], [onError not_found])
  | Some pdfData =>
      let request := build_request pdfData message history in
      ([POST_stateless_chat_stateless_stream request apiKey],
       delivered (afterFetch outcome))
  end.

End Stream.

Definition clearStoredData (this : t) : t := {| storedPDFData := ∅ |}.

End StatelessAPIClient.

(** ** [class StatelessAPIClientWrapper extends StatelessAPIClient] *)

Module StatelessAPIClientWrapper.

(** The object literal [getFileStatus] returns. *)
Record Status := {
  st_file_id : string;
  st_status : string;
  st_filename : string;
  st_page_count : Z;
  st_chunk_count : Z;
  st_processed_at : string;
}.

(** [now] stands for [new Date().toISOString()]. *)
Definition getFileStatus (this : StatelessAPIClient.t) (fileId apiKey now : string)
    : Run Status :=
  match StatelessAPIClient.getPDFData this fileId with
  | None =>
      {| issued := [];
         settled := Resolved {| st_file_id := fileId;
                                st_status := "completed";
                                st_filename := "Document";
                                st_page_count := 0;
                                st_chunk_count := 0;
                                st_processed_at := now |} |}
  | Some pdfData =>
      {| issued := [];
         settled := Resolved {| st_file_id := fileId;
                                st_status := "completed";
                                st_filename := filename pdfData;
                                st_page_count := page_count pdfData;
                                st_chunk_count := chunk_count pdfData;
                                st_processed_at := now |} |}
  end.

Definition uploadPDF := StatelessAPIClient.uploadAndProcessPDF.

Definition sendMessage (this : StatelessAPIClient.t) (request : ChatRequest)
    (apiKey : string) (post : HttpRequest -> Promise ChatResponse) : Run ChatResponse :=
  StatelessAPIClient.sendMessage this (cr_file_id request) (cr_message request)
    (cr_history request) apiKey post.

Definition streamChat (JSON_parse : string -> option StreamEvent) (caller : Caller)
    (this : StatelessAPIClient.t) (request : ChatRequest) (apiKey : string)
    (outcome : FetchOutcome) : list HttpRequest * list Callback :=
  StatelessAPIClient.streamChat JSON_parse caller this (cr_file_id request)
    (cr_message request) (cr_history request) apiKey outcome.

End StatelessAPIClientWrapper.

(** ** [services/api.ts]: [class ApiClient] *)

Module ApiClient.

Section Stream.

Variable JSON_parse : string -> option StreamEvent.
Variable caller : Caller.

Fixpoint forLines (lines : list string) (st : Stream) : Stream * bool :=
  match lines with
  | [] => (st, false)
  | line :: rest =>
      if Js.startsWith "data: " line then
        let data := Js.trim (Js.slice 6 line) in
        if String.eqb data "[DONE]" then (deliver caller onComplete st, true)
        else if Js.truthy data then
          match JSON_parse data with
          | Some event => forLines rest (deliver caller (onMessage event) st)
          | None => forLines rest st
          end
        else forLines rest st
      else forLines rest st
  end.

(** [readStream] with its [buffer] of the incomplete last line. *)
Fixpoint readStream (chunks : list string) (failure : option Error)
    (buffer : string) (st : Stream) : Stream :=
  let st := await caller st in
  if aborted st then st
  else match chunks with
       | [] =>
           match failure with
           | None => deliver caller onComplete st
           | Some e => deliver caller (onError e) st
           end
       | chunk :: more =>
           let buffer := buffer +:+ chunk in
           let '(lines, buffer) := Js.pop (Js.split_nl buffer) in
           let '(st', returned) := forLines lines st in
           if returned then st' else readStream more failure buffer st'
       end.

Definition afterFetch (outcome : FetchOutcome) : Stream :=
  let st := await caller start in
  if aborted st then st
  else match outcome with
       | FetchRejected e => catch caller e st
       | FetchResponse ok status body =>
           if negb ok then
             catch caller {| error_message := "HTTP error! status: " +:+ pretty status |} st
           else match body with
                | None => catch caller {| error_message := "No response body" |} st
                | Some b => readStream (body_chunks b) (body_failure b) "" st
                end
       end.

Definition streamChat (request : ChatRequest) (apiKey : string)
    (outcome : FetchOutcome) : list HttpRequest * list Callback :=
  ([POST_chat_stream request apiKey], delivered (afterFetch outcome)).

End Stream.

Definition sendMessage (request : ChatRequest) (apiKey : string)
    (post : HttpRequest -> Promise ChatResponse) : Run ChatResponse :=
  let call := POST_chat_message request apiKey in
  {| issued := [call]; settled := post call |}.

End ApiClient.

(** ** [services/apiFactory.ts] *)

Inductive Api := RegularApi | StatelessApi.

(** [export const api = isVercel ? statelessApiClient : apiClient] *)
Definition api (isVercel : bool) : Api :=
  if isVercel then StatelessApi else RegularApi.

(** The request [api.uploadPDF(file, apiKey)] sends. *)
Definition uploadPDF_request (client : Api) (file : File) (apiKey : string) : HttpRequest :=
  match client with
  | RegularApi => POST_upload_pdf file apiKey
  | StatelessApi => POST_stateless_upload_process file apiKey
  end.

(** [apiKey: string | null] used as a condition. *)
Definition key_present (apiKey : option string) : option string :=
  match apiKey with
  | Some key => if Js.truthy key then Some key else None
  | None => None
  end.

(** ** [components/PDFUpload.tsx] *)

Module PDFUpload.

Record State := {
  isDragging : bool;
  isUploading : bool;
  error : option string;
  uploadProgress : Z;
  uploadedFile : option string;
  isSuccess : bool;
}.

Definition initial : State :=
  {| isDragging := false; isUploading := false; error := None;
     uploadProgress := 0; uploadedFile := None; isSuccess := false |}.

Definition setError (e : option string) (st : State) : State :=
  {| isDragging := isDragging st; isUploading := isUploading st; error := e;
     uploadProgress := uploadProgress st; uploadedFile := uploadedFile st;
     isSuccess := isSuccess st |}.

Definition maxSize : Z := 10 * 1024 * 1024.

(** [handleFileUpload] up to its [await]: the new state and, when it
    gets that far, the arguments of [apiClient.uploadPDF]. *)
Definition handleFileUpload (apiKey : option string) (file : File) (st : State)
    : State * option (File * string) :=
  match key_present apiKey with
  | None => (setError (Some "API key is required") st, None)
  | Some key =>
      if negb (String.eqb (file_type file) "application/pdf") then
        (setError (Some "Please select a PDF file") st, None)
      else if (file_size file >? maxSize)%Z then
        (setError (Some "File size must be less than 10MB") st, None)
      else
        ({| isDragging := isDragging st; isUploading := true; error := None;
            uploadProgress := 0; uploadedFile := Some (file_name file);
            isSuccess := isSuccess st |},
         Some (file, key))
  end.

(** After the [await]: the upload resolved (and the 500 ms timer fired);
    the result carries the argument of [onFileUploaded]. *)
Definition uploadResolved (file : File) (response_file_id : string) (st : State)
    : State * string :=
  ({| isDragging := isDragging st; isUploading := false; error := error st;
      uploadProgress := 100; uploadedFile := Some (file_name file);
      isSuccess := true |},
   response_file_id).

(** After the [await]: the upload rejected. *)
Definition uploadRejected (err : Error) (st : State) : State :=
  {| isDragging := isDragging st; isUploading := false;
     error := Some (error_message err);
     uploadProgress := 0; uploadedFile := uploadedFile st;
     isSuccess := isSuccess st |}.

(** [handleDrop]: the first dropped file of type PDF is uploaded. *)
Definition handleDrop (apiKey : option string) (files : list File) (st : State)
    : State * option (File * string) :=
  let st := {| isDragging := false; isUploading := isUploading st; error := error st;
               uploadProgress := uploadProgress st; uploadedFile := uploadedFile st;
               isSuccess := isSuccess st |} in
  match List.find (fun file => String.eqb (file_type file) "application/pdf") files with
  | Some pdfFile => handleFileUpload apiKey pdfFile st
  | None => (setError (Some "Please select a PDF file") st, None)
  end.

(** [handleFileSelect] *)
Definition handleFileSelect (apiKey : option string) (files : list File) (st : State)
    : State * option (File * string) :=
  match files with
  | file :: _ => handleFileUpload apiKey file st
  | [] => (st, None)
  end.

(** The network request behind an accepted upload. *)
Definition upload_requests (isVercel : bool) (r : State * option (File * string))
    : list HttpRequest :=
  match snd r with
  | Some (file, key) => [uploadPDF_request (api isVercel) file key]
  | None => []
  end.

End PDFUpload.

(** ** [components/ChatInterface.tsx]

    Message objects are shared between the successive [messages] arrays
    (the updaters copy the array, not its elements) and the last one is
    updated in place, so the component state is a store of message objects
    and [messages] is a list of references into it. *)

Module ChatInterface.

Record State := {
  store : list ChatMessage;
  messages : list nat;
  input : string;
  isStreaming : bool;
  currentSources : list ChatSource;
  error : option string;
  abortStreamRef : bool;
}.

Definition initial : State :=
  {| store := []; messages := []; input := ""; isStreaming := false;
     currentSources := []; error := None; abortStreamRef := false |}.

(** The message objects an array of references denotes. *)
Definition contents (h : list ChatMessage) (refs : list nat) : list ChatMessage :=
  omap (fun r => h !! r) refs.

(** What [MessageList] is given to render. *)
Definition rendered (st : State) : list ChatMessage := contents (store st) (messages st).

Definition setInput (value : string) (st : State) : State :=
  {| store := store st; messages := messages st; input := value;
     isStreaming := isStreaming st; currentSources := currentSources st;
     error := error st; abortStreamRef := abortStreamRef st |}.

(** [handleSubmit]: the new state and, unless the guard returned, the
    arguments of [apiClient.streamChat].  [history: messages] is the
    array of the render in which the handler was created; [streamChat]
    serializes it before it returns. *)
Definition handleSubmit (apiKey : option string) (fileId : string) (st : State)
    : State * option (ChatRequest * string) :=
  match key_present apiKey with
  | None => (st, None)
  | Some key =>
      if negb (Js.truthy (Js.trim (input st))) || isStreaming st then (st, None)
      else
        let userMessage :=
          {| msg_role := user; msg_content := Js.trim (input st); msg_sources := None |} in
        let assistantMessage :=
          {| msg_role := assistant; msg_content := ""; msg_sources := Some [] |} in
        let u := length (store st) in
        let request :=
          {| cr_file_id := fileId;
             cr_message := msg_content userMessage;
             cr_history := contents (store st) (messages st) |} in
        ({| store := store st ++ [userMessage; assistantMessage];
            messages := messages st ++ [u; S u];
            input := "";
            isStreaming := true;
            currentSources := [];
            error := None;
            abortStreamRef := true |},
         Some (request, key))
  end.

(** Update in place the object that [newMessages[newMessages.length - 1]]
    refers to, when its role is [assistant]. *)
Definition updateLast (f : ChatMessage -> ChatMessage) (st : State) : list ChatMessage :=
  match last (messages st) with
  | Some r =>
      match store st !! r with
      | Some lastMessage =>
          match msg_role lastMessage with
          | assistant => <[r := f lastMessage]> (store st)
          | user => store st
          end
      | None => store st
      end
  | None => store st
  end.

(** The [onMessage] callback. *)
Definition handleEvent (event : StreamEvent) (st : State) : State :=
  if String.eqb (ev_type event) "content" then
    let add m := {| msg_role := msg_role m;
                    msg_content := msg_content m +:+ default "" (ev_content event);
                    msg_sources := msg_sources m |} in
    {| store := updateLast add st; messages := messages st; input := input st;
       isStreaming := isStreaming st; currentSources := currentSources st;
       error := error st; abortStreamRef := abortStreamRef st |}
  else if String.eqb (ev_type event) "sources" then
    let set m := {| msg_role := msg_role m; msg_content := msg_content m;
                    msg_sources := ev_sources event |} in
    {| store := updateLast set st; messages := messages st; input := input st;
       isStreaming := isStreaming st;
       currentSources := default [] (ev_sources event);
       error := error st; abortStreamRef := abortStreamRef st |}
  else if String.eqb (ev_type event) "error" then
    let text := match ev_content event with
                | Some c => if Js.truthy c then c else "An error occurred"
                | None => "An error occurred"
                end in
    {| store := store st; messages := messages st; input := input st;
       isStreaming := isStreaming st; currentSources := currentSources st;
       error := Some text; abortStreamRef := abortStreamRef st |}
  else st.

Definition setIsStreaming (b : bool) (st : State) : State :=
  {| store := store st; messages := messages st; input := input st;
     isStreaming := b; currentSources := currentSources st;
     error := error st; abortStreamRef := abortStreamRef st |}.

(** The three callbacks handed to [streamChat]. *)
Definition handle (cb : Callback) (st : State) : State :=
  match cb with
  | onMessage event => handleEvent event st
  | onError e =>
      {| store := store st; messages := messages st; input := input st;
         isStreaming := false; currentSources := currentSources st;
         error := Some (error_message e); abortStreamRef := abortStreamRef st |}
  | onComplete => setIsStreaming false st
  end.

Definition handleAll (cbs : list Callback) (st : State) : State :=
  fold_left (fun st cb => handle cb st) cbs st.

(** [handleStopStreaming] *)
Definition handleStopStreaming (st : State) : State :=
  if abortStreamRef st then
    {| store := store st; messages := messages st; input := input st;
       isStreaming := false; currentSources := currentSources st;
       error := error st; abortStreamRef := false |}
  else st.

(** What the user and the stream do between two submissions. *)
Inductive Action :=
| Deliver (cb : Callback)
| Typing (value : string)
| Stop.

Definition act (st : State) (a : Action) : State :=
  match a with
  | Deliver cb => handle cb st
  | Typing value => setInput value st
  | Stop => handleStopStreaming st
  end.

(** Every reference of [messages] points into the store. *)
Definition well_formed (st : State) : Prop :=
  Forall (fun r => r < length (store st)) (messages st).

End ChatInterface.

(** ** The retrieval core, modelled from the specification

    The chunker, the retriever, the session store and the answer
    synthesizer are server code; none of it is part of the front-end
    sources above.  Each definition below follows the specification. *)

Module Core.

(** Modelled from the spec: the error taxonomy of section 7, with the
    fatal construction error of section 3. *)
Inductive ErrorKind :=
| ConfigurationError
| EmptyDocumentError
| EmbeddingBackendError
| SessionNotFoundError
| SessionDataMissingError
| GenerationBackendError
| ConstructionError.

(** Modelled from the spec: the outcome of a core operation, a value or
    an error of a stable kind. *)
Inductive Result (A : Type) :=
| Ok (a : A)
| Err (e : ErrorKind).
Arguments Ok {A} a.
Arguments Err {A} e.

(** Modelled from the spec: the Chunk of section 3.  [chunk_id] is the
    position in the document, [ordinal_index] the position in the page
    (both from 0), [page_number] counts from 1. *)
Record Chunk := {
  chunk_id : nat;
  text : string;
  page_number : nat;
  ordinal_index : nat;
  total_chunks_in_page : nat;
}.

(** Modelled from the spec: the EmbeddingVector of section 3, with
    rational components standing for the floating-point ones. *)
Definition EmbeddingVector := list Q.

(** *** Chunker *)

(** Modelled from the spec: the windows of one page (the chunker is
    absent from the sources).  Windows have [size] characters and start
    [step] characters apart; a window that reaches the end of the page
    is the final one and is kept as it is; an empty page has none.
    [fuel] bounds the number of windows. *)
Fixpoint windows_from {A : Type} (fuel : nat) (size step : nat) (page : list A)
    : list (list A) :=
  match fuel with
  | O => []
  | S fuel' =>
      match page with
      | [] => []
      | _ :: _ =>
          if length page <=? size then [page]
          else firstn size page :: windows_from fuel' size step (skipn step page)
      end
  end.

(** Modelled from the spec: the windows of a page for the parameters of
    the chunker; the page itself bounds their number. *)
Definition windows {A : Type} (chunk_size overlap : nat) (page : list A) : list (list A) :=
  windows_from (length page) chunk_size (chunk_size - overlap) page.

(** Modelled from the spec: the chunk texts of one page. *)
Definition chunk_page (chunk_size overlap : nat) (page : string) : list string :=
  map string_of_list_ascii (windows chunk_size overlap (list_ascii_of_string page)).

(** Modelled from the spec: the chunks of page [page_number] with their
    metadata, the first of them being chunk
    [first_id] of the document. *)
Definition page_chunks (chunk_size overlap first_id page_number : nat) (page : string)
    : list Chunk :=
  let texts := chunk_page chunk_size overlap page in
  imap (fun i t => {| chunk_id := first_id + i; text := t; page_number := page_number;
                      ordinal_index := i; total_chunks_in_page := length texts |}) texts.

(** Modelled from the spec: the chunks of the pages, page after page. *)
Fixpoint chunk_pages (chunk_size overlap first_id page_number : nat) (pages : list string)
    : list Chunk :=
  match pages with
  | [] => []
  | page :: rest =>
      let cs := page_chunks chunk_size overlap first_id page_number page in
      cs ++ chunk_pages chunk_size overlap (first_id + length cs) (S page_number) rest
  end.

(** Modelled from the spec: [chunk(page_texts, chunk_size, overlap)]. *)
Definition chunk (page_texts : list string) (chunk_size overlap : nat) : Result (list Chunk) :=
  if chunk_size <=? overlap then Err ConfigurationError
  else match chunk_pages chunk_size overlap 0 1 page_texts with
       | [] => Err EmptyDocumentError
       | cs => Ok cs
       end.

(** *** Sessions *)

(** Modelled from the spec: the DocumentSession of section 3. *)
Record DocumentSession := {
  document_id : string;
  session_chunks : list Chunk;
  session_embeddings : list EmbeddingVector;
  session_filename : string;
  session_page_count : nat;
}.

(** Modelled from the spec: the one way to construct a session; a
    mismatch of the two lengths is a fatal construction error. *)
Definition new_session (id : string) (cs : list Chunk) (es : list EmbeddingVector)
    (name : string) (pages : nat) : Result DocumentSession :=
  if length cs =? length es then
    Ok {| document_id := id; session_chunks := cs; session_embeddings := es;
          session_filename := name; session_page_count := pages |}
  else Err ConstructionError.

(** Modelled from the spec: the relationship invariant of section 3. *)
Definition aligned (s : DocumentSession) : Prop :=
  length (session_chunks s) = length (session_embeddings s).

(** Modelled from the spec: the candidates of retrieval, chunk [i] with
    vector [i]. *)
Definition candidates (s : DocumentSession) : list (Chunk * EmbeddingVector) :=
  zip (session_chunks s) (session_embeddings s).

(** Modelled from the spec: the RetrievedChunk of section 3. *)
Record RetrievedChunk := {
  retrieved_chunk : Chunk;
  relevance_score : Q;
}.

Section Pipeline.

(** Modelled from the spec: the external embedding capability on one
    text; [None] when it fails. *)
Variable embedding : string -> option EmbeddingVector.

(** Modelled from the spec: cosine similarity with its degenerate case,
    clamped to [0, 1]; it is a function of the two vectors and is left
    abstract. *)
Variable similarity : EmbeddingVector -> EmbeddingVector -> Q.

(** Modelled from the spec: [embed(texts)], all or nothing. *)
Definition embed (texts : list string) : Result (list EmbeddingVector) :=
  match mapM embedding texts with
  | Some vs => Ok vs
  | None => Err EmbeddingBackendError
  end.

(** *** Retriever *)

(** Modelled from the spec: the score of a candidate against the
    query. *)
Definition score_of (query_vector : EmbeddingVector)
    (c : nat * (Chunk * EmbeddingVector)) : Q :=
  similarity query_vector (snd (snd c)).

(** Modelled from the spec: insertion into a list sorted by descending
    score, the step of the stable sort of section 4.3: the new
    candidate passes those that score strictly higher and stops in
    front of the first one that does not. *)
Fixpoint insert_ranked (query_vector : EmbeddingVector)
    (x : nat * (Chunk * EmbeddingVector)) (l : list (nat * (Chunk * EmbeddingVector)))
    : list (nat * (Chunk * EmbeddingVector)) :=
  match l with
  | [] => [x]
  | y :: l' =>
      if Qlt_le_dec (score_of query_vector x) (score_of query_vector y)
      then y :: insert_ranked query_vector x l'
      else x :: l
  end.

(** Modelled from the spec: candidates with their ordinals. *)
Definition indexed {A : Type} (l : list A) : list (nat * A) := zip (seq 0 (length l)) l.

(** Modelled from the spec: the full ranking, a stable sort by
    descending similarity. *)
Definition ranking (query_vector : EmbeddingVector)
    (cands : list (Chunk * EmbeddingVector)) : list (nat * (Chunk * EmbeddingVector)) :=
  foldr (insert_ranked query_vector) [] (indexed cands).

(** Modelled from the spec: a ranked candidate as a result. *)
Definition to_retrieved (query_vector : EmbeddingVector)
    (c : nat * (Chunk * EmbeddingVector)) : RetrievedChunk :=
  {| retrieved_chunk := fst (snd c); relevance_score := score_of query_vector c |}.

(** Modelled from the spec: [retrieve(query_vector, candidates, k)],
    with [k] clamped to the number of candidates. *)
Definition retrieve (query_vector : EmbeddingVector)
    (cands : list (Chunk * EmbeddingVector)) (k : nat) : list RetrievedChunk :=
  map (to_retrieved query_vector) (firstn (Nat.min k (length cands)) (ranking query_vector cands)).

(** Modelled from the spec: the order the ranking has to respect, higher
    score first and
    among equal scores the lower ordinal first. *)
Definition before (query_vector : EmbeddingVector)
    (a b : nat * (Chunk * EmbeddingVector)) : Prop :=
  (score_of query_vector b < score_of query_vector a)%Q \/
  ((score_of query_vector a == score_of query_vector b)%Q /\ fst a < fst b).

(** *** Session store, server-resident *)

(** Modelled from the spec: [create(document)]; [token] is the
    generated identifier.  Nothing is stored when a step fails. *)
Definition ingest (token name : string) (page_texts : list string)
    (chunk_size overlap : nat) : Result DocumentSession :=
  match chunk page_texts chunk_size overlap with
  | Err e => Err e
  | Ok cs =>
      match embed (map text cs) with
      | Err e => Err e
      | Ok es => new_session token cs es name (length page_texts)
      end
  end.

(** Modelled from the spec: [create] of the server-resident store. *)
Definition create (store : gmap string DocumentSession) (token name : string)
    (page_texts : list string) (chunk_size overlap : nat)
    : gmap string DocumentSession * Result string :=
  match ingest token name page_texts chunk_size overlap with
  | Ok s => (<[token := s]> store, Ok token)
  | Err e => (store, Err e)
  end.

(** Modelled from the spec: [load] of the server-resident store. *)
Definition load (store : gmap string DocumentSession) (id : string) : Result DocumentSession :=
  match store !! id with
  | Some s => Ok s
  | None => Err SessionNotFoundError
  end.

(** Modelled from the spec: [clear] of the server-resident store. *)
Definition clear (store : gmap string DocumentSession) (id : string)
    : gmap string DocumentSession :=
  delete id store.

(** Modelled from the spec: the operations that change the
    server-resident store. *)
Inductive Operation :=
| Create (token name : string) (page_texts : list string) (chunk_size overlap : nat)
| Clear (id : string).

(** Modelled from the spec: the effect of one operation on the store. *)
Definition apply (store : gmap string DocumentSession) (op : Operation)
    : gmap string DocumentSession :=
  match op with
  | Create token name page_texts chunk_size overlap =>
      fst (create store token name page_texts chunk_size overlap)
  | Clear id => clear store id
  end.

(** Modelled from the spec: the store after a history of operations, from
    the empty store of
    process start. *)
Definition store_after (ops : list Operation) : gmap string DocumentSession :=
  fold_left apply ops ∅.

(** *** Session store, stateless *)

(** Modelled from the spec: the metadata of a chunk in the payload. *)
Definition serialize_metadata (c : Chunk) : ChunkMetadata :=
  {| meta_page := Z.of_nat (page_number c);
     meta_chunk_index := Z.of_nat (ordinal_index c);
     meta_total_chunks := Z.of_nat (total_chunks_in_page c) |}.

(** Modelled from the spec: the payload handed to the caller at
    upload. *)
Definition serialize (s : DocumentSession) : ProcessedPDF :=
  {| file_id := document_id s;
     filename := session_filename s;
     page_count := Z.of_nat (session_page_count s);
     chunk_count := Z.of_nat (length (session_chunks s));
     chunks := map text (session_chunks s);
     embeddings := session_embeddings s;
     chunk_metadata := map serialize_metadata (session_chunks s) |}.

(** Modelled from the spec: the metadata of chunk [i] in a payload;
    metadata serve the display of citations, a missing entry reads as
    zeros. *)
Definition metadata_at (metadata : list ChunkMetadata) (i : nat) : ChunkMetadata :=
  default {| meta_page := 0; meta_chunk_index := 0; meta_total_chunks := 0 |}
          (metadata !! i).

(** Modelled from the spec: chunk [i] of a payload. *)
Definition deserialize_chunk (metadata : list ChunkMetadata) (i : nat) (t : string) : Chunk :=
  {| chunk_id := i; text := t;
     page_number := Z.to_nat (meta_page (metadata_at metadata i));
     ordinal_index := Z.to_nat (meta_chunk_index (metadata_at metadata i));
     total_chunks_in_page := Z.to_nat (meta_total_chunks (metadata_at metadata i)) |}.

(** Modelled from the spec: [load] of the stateless mode, a pure
    deserialization of the payload each request carries. *)
Definition load_stateless (request : StatelessChatRequest) : Result DocumentSession :=
  new_session ""
    (imap (deserialize_chunk (req_chunk_metadata request)) (req_chunks request))
    (req_embeddings request) "" 0.

(** Modelled from the spec: retrieval on a loaded session. *)
Definition retrieve_session (s : DocumentSession) (query_vector : EmbeddingVector)
    (k : nat) : list RetrievedChunk :=
  retrieve query_vector (candidates s) k.

End Pipeline.

(** *** Answer synthesizer *)

(** Modelled from the spec: the streamed output of section 6. *)
Inductive Event :=
| content (t : string)
| sources (l : list RetrievedChunk)
| done
| error (kind : ErrorKind).

(** Modelled from the spec: the states of section 4.5. *)
Inductive State :=
| Idle
| Retrieving
| Generating (grounding : list RetrievedChunk)
| Complete
| Cancelled
| Failed.

(** Modelled from the spec: what happens to a question in flight. *)
Inductive Input :=
| ask
| retrieved (r : Result (list RetrievedChunk))
| token (t : string)
| backend_done
| backend_failed
| cancel.

(** Modelled from the spec: one transition and the events it emits.
    Terminal states absorb every input, and an input that does not
    belong to the current state is ignored. *)
Definition step (s : State) (i : Input) : State * list Event :=
  match s, i with
  | Idle, ask => (Retrieving, [])
  | Retrieving, retrieved (Ok l) => (Generating l, [])
  | Retrieving, retrieved (Err e) => (Failed, [error e])
  | Retrieving, cancel => (Cancelled, [])
  | Generating l, token t => (Generating l, [content t])
  | Generating l, backend_done => (Complete, [sources l; done])
  | Generating l, backend_failed => (Failed, [error GenerationBackendError])
  | Generating l, cancel => (Cancelled, [])
  | _, _ => (s, [])
  end.

(** Modelled from the spec: the final state and the events of a question,
    given all that happens to it. *)
Fixpoint run (s : State) (inputs : list Input) : State * list Event :=
  match inputs with
  | [] => (s, [])
  | i :: rest =>
      let '(s', out) := step s i in
      let '(s'', out') := run s' rest in
      (s'', out ++ out')
  end.

(** Modelled from the spec: the terminal states. *)
Definition terminal (s : State) : Prop :=
  s = Complete \/ s = Cancelled \/ s = Failed.

(** Modelled from the spec: the tokens that arrive while the answer is
    being generated. *)
Fixpoint forwarded (s : State) (inputs : list Input) : list string :=
  match inputs with
  | [] => []
  | i :: rest =>
      match s, i with
      | Generating _, token t => t :: forwarded (fst (step s i)) rest
      | _, _ => forwarded (fst (step s i)) rest
      end
  end.

End Core.

(** ** Server-sent events on the wire, for the examples *)

Module Wire.

(** The double quote and the line feed. *)
Definition dq : string := String (ascii_of_nat 34) EmptyString.
Definition nl : string := String Js.newline EmptyString.

Definition quoted (s : string) : string := dq +:+ s +:+ dq.

(** One event of the stream: [data: <payload>] and an empty line. *)
Definition sse (payload : string) : string := "data: " +:+ payload +:+ nl +:+ nl.

(** The text of a whole successful stream: one [data:] line per event,
    then the end marker.  [payload] stands for the JSON encoder of the
    server. *)
Definition body_text (payload : StreamEvent -> string) (events : list StreamEvent) : string :=
  Js.concat (map (fun e => sse (payload e)) events) +:+ sse "[DONE]".

(** What the clients need of the encoding of one event: [JSON.parse]
    reads it back, and it is one non-empty line without surrounding
    white space that is not the end marker. *)
Definition well_encoded (JSON_parse : string -> option StreamEvent)
    (payload : StreamEvent -> string) (e : StreamEvent) : Prop :=
  JSON_parse (payload e) = Some e /\
  Js.split_nl (payload e) = [payload e] /\
  Js.trim (payload e) = payload e /\
  payload e <> "[DONE]" /\
  payload e <> "".

(** The JSON text of a content event. *)
Definition json_content (t : string) : string :=
  "{" +:+ quoted "type" +:+ ":" +:+ quoted "content" +:+ ","
      +:+ quoted "content" +:+ ":" +:+ quoted t +:+ "}".

Definition content_event (t : string) : StreamEvent :=
  {| ev_type := "content"; ev_content := Some t; ev_sources := None |}.

(** The JSON text of a sources event with one source, in two pieces. *)
Definition json_sources_head : string :=
  "{" +:+ quoted "type" +:+ ":" +:+ quoted "sources" +:+ ","
      +:+ quoted "sources" +:+ ":[{" +:+ quoted "page" +:+ ":1,".

Definition json_sources_tail : string :=
  quoted "chunk_id" +:+ ":" +:+ quoted "chunk_0" +:+ ","
    +:+ quoted "content" +:+ ":" +:+ quoted "excerpt" +:+ ","
    +:+ quoted "relevance_score" +:+ ":0.5}]}".

Definition json_sources : string := json_sources_head +:+ json_sources_tail.

Definition one_source : ChatSource :=
  {| src_page := 1; src_chunk_id := "chunk_0"; src_content := "excerpt";
     src_relevance_score := 1 # 2 |}.

Definition sources_event (l : list ChatSource) : StreamEvent :=
  {| ev_type := "sources"; ev_content := None; ev_sources := Some l |}.

(** A response whose sources line is cut by the network after
    [json_sources_head]. *)
Definition cut_response : FetchOutcome :=
  FetchResponse true 200
    (Some {| body_chunks := ["data: " +:+ json_sources_head;
                             json_sources_tail +:+ nl +:+ nl +:+ sse "[DONE]"];
             body_failure := None |}).

(** The same body text, arriving in one read. *)
Definition uncut_response : FetchOutcome :=
  FetchResponse true 200
    (Some {| body_chunks := [sse json_sources +:+ sse "[DONE]"];
             body_failure := None |}).

(** A response that arrives in one read: three tokens, the sources and
    the end marker. *)
Definition one_read_response : FetchOutcome :=
  FetchResponse true 200
    (Some {| body_chunks := [sse (json_content "A") +:+ sse (json_content "B")
                               +:+ sse (json_content "C") +:+ sse json_sources
                               +:+ sse "[DONE]"];
             body_failure := None |}).

(** A caller that invokes the abort function inside its second callback. *)
Definition aborts_in_second_callback : Caller :=
  {| abort_in_callback := fun received => length received =? 2;
     abort_while_pending := fun _ => false |}.

(** A stand-in for [JSON.parse] that knows the texts above. *)
Definition parse_known (data : string) : option StreamEvent :=
  if String.eqb data (json_content "A") then Some (content_event "A")
  else if String.eqb data (json_content "B") then Some (content_event "B")
  else if String.eqb data (json_content "C") then Some (content_event "C")
  else if String.eqb data json_sources then Some (sources_event [one_source])
  else None.

(** The encoder on the events of the examples. *)
Definition encode_known (e : StreamEvent) : string :=
  match ev_content e with
  | Some t => json_content t
  | None => json_sources
  end.

Definition a_payload : ProcessedPDF :=
  {| file_id := "f1"; filename := "paper.pdf"; page_count := 1; chunk_count := 1;
     chunks := ["excerpt"]; embeddings := [[1 # 2; 1 # 3]];
     chunk_metadata := [{| meta_page := 1; meta_chunk_index := 0; meta_total_chunks := 1 |}] |}.

Definition a_client : StatelessAPIClient.t :=
  {| StatelessAPIClient.storedPDFData := {[ "f1" := a_payload ]} |}.

End Wire.

(** ** [contexts/ApiKeyContext.tsx] *)

Module ApiKeyContext.

Definition API_KEY_STORAGE_KEY : string := "rag_chat_api_key".

(** The provider's state next to the browser's [localStorage]. *)
Record World := {
  localStorage : gmap string string;
  apiKey : option string;
}.

(** Mounting the provider: [useState(() => localStorage.getItem(...))]. *)
Definition mount (storage : gmap string string) : World :=
  {| localStorage := storage; apiKey := storage !! API_KEY_STORAGE_KEY |}.

Definition setApiKey (key : string) (w : World) : World :=
  {| localStorage := <[API_KEY_STORAGE_KEY := key]> (localStorage w);
     apiKey := Some key |}.

Definition clearApiKey (w : World) : World :=
  {| localStorage := delete API_KEY_STORAGE_KEY (localStorage w);
     apiKey := None |}.

(** The calls a consumer of the context can make. *)
Inductive Call :=
| SetApiKey (key : string)
| ClearApiKey.

Definition call (w : World) (c : Call) : World :=
  match c with
  | SetApiKey key => setApiKey key w
  | ClearApiKey => clearApiKey w
  end.

End ApiKeyContext.

(** ** [components/ApiKeyModal.tsx] *)

Module ApiKeyModal.

Record State := {
  apiKey : string;
  error : string;
}.

(** The effect on [isOpen]: an opening modal starts empty. *)
Definition opened : State := {| apiKey := ""; error := "" |}.

(** [onChange] of the input. *)
Definition setApiKey (value : string) (st : State) : State :=
  {| apiKey := value; error := error st |}.

Definition setError (e : string) (st : State) : State :=
  {| apiKey := apiKey st; error := e |}.

Definition invalid_format : string :=
  "Invalid API key format. OpenAI API keys start with " +:+ Wire.quoted "sk-".

(** [handleSubmit]: the new state and, when the key is accepted, the
    argument of [onSubmit]. *)
Definition handleSubmit (st : State) : State * option string :=
  if negb (Js.truthy (Js.trim (apiKey st))) then
    (setError "Please enter your API key" st, None)
  else if negb (Js.startsWith "sk-" (apiKey st)) then
    (setError invalid_format st, None)
  else (st, Some (Js.trim (apiKey st))).

End ApiKeyModal.

(** ** [pages/HomePage.tsx] *)

Module HomePage.

(** The page with the provider above it and the modal below it. *)
Record State := {
  context : ApiKeyContext.World;
  isApiKeyModalOpen : bool;
  modal : ApiKeyModal.State;
}.

(** Mounting the page: [useState(!apiKey)]. *)
Definition mount (storage : gmap string string) : State :=
  let w := ApiKeyContext.mount storage in
  {| context := w;
     isApiKeyModalOpen :=
       match key_present (ApiKeyContext.apiKey w) with Some _ => false | None => true end;
     modal := ApiKeyModal.opened |}.

(** Whether [PDFUpload] is rendered: [apiKey ? <PDFUpload/> : ...]. *)
Definition shows_upload (st : State) : bool :=
  match key_present (ApiKeyContext.apiKey (context st)) with Some _ => true | None => false end.

(** What the user can do on the page. *)
Inductive Event :=
| ClickOpen
| ModalChange (value : string)
| ModalSubmit
| ModalCancel.

Definition handle (st : State) (e : Event) : State :=
  match e with
  | ClickOpen =>
      if isApiKeyModalOpen st then st
      else {| context := context st; isApiKeyModalOpen := true;
              modal := ApiKeyModal.opened |}
  | ModalChange value =>
      if isApiKeyModalOpen st then
        {| context := context st; isApiKeyModalOpen := true;
           modal := ApiKeyModal.setApiKey value (modal st) |}
      else st
  | ModalSubmit =>
      if isApiKeyModalOpen st then
        match ApiKeyModal.handleSubmit (modal st) with
        | (m, Some key) =>
            {| context := ApiKeyContext.setApiKey key (context st);
               isApiKeyModalOpen := false; modal := m |}
        | (m, None) =>
            {| context := context st; isApiKeyModalOpen := true; modal := m |}
        end
      else st
  | ModalCancel =>
      if isApiKeyModalOpen st then
        match key_present (ApiKeyContext.apiKey (context st)) with
        | Some _ => {| context := context st; isApiKeyModalOpen := false;
                       modal := modal st |}
        | None => st
        end
      else st
  end.

End HomePage.

(** ** [services/statelessApi.ts]: the copy in [sessionStorage] *)

Module StatelessStorage.

Section Codec.

(** [JSON.stringify] and [JSON.parse] on the entries of the map; [None]
    when the text does not parse into entries. *)
Variable JSON_stringify : list (string * ProcessedPDF) -> string.
Variable JSON_parse : string -> option (list (string * ProcessedPDF)).

(** [new Map(data)]: entries are set in order, a later entry replaces an
    earlier one with the same key. *)
Definition Map_of_entries (data : list (string * ProcessedPDF)) : gmap string ProcessedPDF :=
  foldl (fun m entry => <[fst entry := snd entry]> m) ∅ data.

(** [sessionStorage.setItem(key, value)]: the browser throws (a
    [QuotaExceededError]) when the value does not fit and then leaves the
    storage as it is.  [quota] is the browser's decision: the exception
    thrown, or [None] when the value fits. *)
Variable quota : gmap string string -> string -> string -> option Error.

Definition setItem (key value : string) (sessionStorage : gmap string string)
    : Error + gmap string string :=
  match quota sessionStorage key value with
  | Some e => inl e
  | None => inr (<[key := value]> sessionStorage)
  end.

(** [saveToSession]: no [try] around [setItem], its exception escapes. *)
Definition saveToSession (this : StatelessAPIClient.t) (sessionStorage : gmap string string)
    : Error + gmap string string :=
  setItem "pdf_data" (JSON_stringify (map_to_list (StatelessAPIClient.storedPDFData this)))
    sessionStorage.

(** [restoreFromSession] *)
Definition restoreFromSession (this : StatelessAPIClient.t)
    (sessionStorage : gmap string string) : StatelessAPIClient.t :=
  match sessionStorage !! "pdf_data" with
  | Some stored =>
      if Js.truthy stored then
        match JSON_parse stored with
        | Some data => {| StatelessAPIClient.storedPDFData := Map_of_entries data |}
        | None => this
        end
      else this
  | None => this
  end.

(** [constructor] *)
Definition construct (sessionStorage : gmap string string) : StatelessAPIClient.t :=
  restoreFromSession {| StatelessAPIClient.storedPDFData := ∅ |} sessionStorage.

(** [uploadAndProcessPDF] with its [saveToSession]: the payload is set
    in the map first; when [saveToSession] then throws, the method rejects
    with that exception although the POST resolved. *)
Definition uploadAndProcessPDF (this : StatelessAPIClient.t)
    (sessionStorage : gmap string string) (file : File) (apiKey : string)
    (response : Promise ProcessedPDF)
    : StatelessAPIClient.t * gmap string string * Run ProcessedPDF :=
  let '(this', run) := StatelessAPIClient.uploadAndProcessPDF this file apiKey response in
  match response with
  | Resolved _ =>
      match saveToSession this' sessionStorage with
      | inr written => (this', written, run)
      | inl e => (this', sessionStorage, {| issued := issued run; settled := Rejected e |})
      end
  | Rejected _ => (this', sessionStorage, run)
  end.

(** [clearStoredData] with its [sessionStorage.removeItem]. *)
Definition clearStoredData (this : StatelessAPIClient.t)
    (sessionStorage : gmap string string) : StatelessAPIClient.t * gmap string string :=
  (StatelessAPIClient.clearStoredData this, delete "pdf_data" sessionStorage).

End Codec.

End StatelessStorage.

(** ** A chat session: submissions and what happens between them *)

Module ChatSession.

Inductive Step :=
| Submit (apiKey : option string) (fileId : string)
| Do (a : ChatInterface.Action).

Definition step (st : ChatInterface.State) (s : Step) : ChatInterface.State :=
  match s with
  | Submit apiKey fileId => fst (ChatInterface.handleSubmit apiKey fileId st)
  | Do a => ChatInterface.act st a
  end.

(** The roles of a conversation of [n] questions. *)
Definition turns (n : nat) : list Role := mjoin (replicate n [user; assistant]).

(** Actions that leave a question in flight: events and keystrokes. *)
Definition keeps_streaming (a : ChatInterface.Action) : bool :=
  match a with
  | ChatInterface.Deliver (onMessage _) => true
  | ChatInterface.Typing _ => true
  | _ => false
  end.

End ChatSession.

(** ** What the stream puts into the answer in flight *)

Module Answer.

(** The text a [content] event appends to the answer. *)
Definition token (a : ChatInterface.Action) : option string :=
  match a with
  | ChatInterface.Deliver (onMessage event) =>
      if String.eqb (ev_type event) "content" then Some (default "" (ev_content event))
      else None
  | _ => None
  end.

(** The text appended by a sequence of actions, in their order. *)
Definition text (actions : list ChatInterface.Action) : string :=
  Js.concat (omap token actions).

(** The sources of the answer after one action: a [sources] event
    replaces them. *)
Definition sources_after (sources : option (list ChatSource)) (a : ChatInterface.Action)
    : option (list ChatSource) :=
  match a with
  | ChatInterface.Deliver (onMessage event) =>
      if String.eqb (ev_type event) "content" then sources
      else if String.eqb (ev_type event) "sources" then ev_sources event
      else sources
  | _ => sources
  end.

Definition sources (actions : list ChatInterface.Action)
    (initially : option (list ChatSource)) : option (list ChatSource) :=
  fold_left sources_after actions initially.

(** The answer of a question after a sequence of actions. *)
Definition filled (actions : list ChatInterface.Action) : ChatMessage :=
  {| msg_role := assistant; msg_content := text actions;
     msg_sources := sources actions (Some []) |}.

End Answer.

(** ** Shapes of callback sequences *)

Module Callbacks.

(** Only [onMessage] calls so far. *)
Definition only_messages (d : list Callback) : Prop :=
  exists events, d = map onMessage events.

(** [onMessage] calls, then at most one call of [onComplete] or
    [onError], then nothing. *)
Definition settled_at_most_once (d : list Callback) : Prop :=
  exists events closing,
    d = map onMessage events ++ closing /\
    (closing = [] \/ closing = [onComplete] \/ exists e, closing = [onError e]).

(** The text of one read that holds whole events. *)
Definition read_of (payload : StreamEvent -> string) (group : list StreamEvent) : string :=
  Js.concat (map (fun e => Wire.sse (payload e)) group).

End Callbacks.

(** * Theorems *)

(** ** JavaScript strings *)

Module JsFacts.
Import Js.

Lemma split_nl_nonempty s : split_nl s <> [].
Proof.
  destruct s as [|c s]; simpl; [discriminate|].
  destruct (Ascii.eqb c newline); [discriminate|].
  destruct (split_nl s); discriminate.
Qed.

Lemma append_cons c x y : String c x +:+ y = String c (x +:+ y).
Proof. reflexivity. Qed.

Lemma append_empty_r s : s +:+ "" = s.
Proof. induction s as [|c s IH]; [reflexivity|]. by rewrite append_cons, IH. Qed.

Lemma append_assoc a b c : (a +:+ b) +:+ c = a +:+ (b +:+ c).
Proof. induction a as [|x a IH]; [reflexivity|]. by rewrite !append_cons, IH. Qed.

(** Splitting a concatenation: the complete lines of the first part,
    then the split of its unfinished last line followed by the second
    part. *)
Lemma split_nl_app x y :
  split_nl (x +:+ y) =
  removelast (split_nl x) ++ split_nl (List.last (split_nl x) "" +:+ y).
Proof.
  induction x as [|c x IH]; [reflexivity|].
  pose proof (split_nl_nonempty x) as Hne.
  rewrite append_cons. cbn [split_nl].
  destruct (Ascii.eqb c newline) eqn:Hc.
  - rewrite IH. destruct (split_nl x) as [|h t]; [done|]. reflexivity.
  - rewrite IH. destruct (split_nl x) as [|h [|h' t]]; [done| |].
    + cbn [removelast List.last app]. rewrite append_cons. cbn [split_nl].
      rewrite Hc. reflexivity.
    + reflexivity.
Qed.

(** The unfinished last line holds no line break. *)
Lemma split_nl_last s :
  split_nl (List.last (split_nl s) "") = [List.last (split_nl s) ""].
Proof.
  induction s as [|c s IH]; [reflexivity|].
  pose proof (split_nl_nonempty s) as Hne.
  cbn [split_nl]. destruct (Ascii.eqb c newline) eqn:Hc.
  - destruct (split_nl s) as [|h t]; [done|]. exact IH.
  - destruct (split_nl s) as [|h [|h' t]]; [done| |].
    + cbn [List.last] in *. cbn [split_nl]. rewrite Hc, IH. reflexivity.
    + exact IH.
Qed.

(** A text without line break, followed by a line break, is a line. *)
Lemma split_nl_line x y :
  split_nl x = [x] -> split_nl (x +:+ String newline y) = x :: split_nl y.
Proof.
  induction x as [|c x IH]; [reflexivity|].
  pose proof (split_nl_nonempty x) as Hne.
  rewrite append_cons. cbn [split_nl].
  destruct (Ascii.eqb c newline).
  - destruct (split_nl x); [done|]. discriminate.
  - destruct (split_nl x) as [|h [|h' t]] eqn:Hx; [done| |discriminate].
    intros [= ->]. by rewrite IH.
Qed.

Lemma split_nl_cons c x :
  Ascii.eqb c newline = false -> split_nl x = [x] -> split_nl (String c x) = [String c x].
Proof. intros Hc Hx. cbn [split_nl]. by rewrite Hc, Hx. Qed.

Lemma startsWith_append p s : startsWith p (p +:+ s) = true.
Proof.
  unfold startsWith. induction p as [|c p IH]; [by destruct s|].
  rewrite append_cons. cbn. destruct (ascii_dec c c); [exact IH | done].
Qed.

Lemma slice_append p s : slice (String.length p) (p +:+ s) = s.
Proof. induction p as [|c p IH]; [reflexivity|]. exact IH. Qed.

End JsFacts.

(** ** The stateless client: a chat call needs the retained payload *)

(** C10: in the stateless wrapper [getFileStatus] sends nothing, always
    resolves and never reports not-found.  For an identifier with no
    stored payload it resolves to the fabricated status [completed] with
    filename [Document], page count 0 and chunk count 0; for a stored
    identifier it resolves to status [completed] with the filename, page
    count and chunk count of the payload. *)
Theorem getFileStatus_never_not_found
    (this : StatelessAPIClient.t) (fileId apiKey now : string) :
  let r := StatelessAPIClientWrapper.getFileStatus this fileId apiKey now in
  issued r = [] /\
  settled r = Resolved
    match StatelessAPIClient.storedPDFData this !! fileId with
    | None =>
        {| StatelessAPIClientWrapper.st_file_id := fileId;
           StatelessAPIClientWrapper.st_status := "completed";
           StatelessAPIClientWrapper.st_filename := "Document";
           StatelessAPIClientWrapper.st_page_count := 0;
           StatelessAPIClientWrapper.st_chunk_count := 0;
           StatelessAPIClientWrapper.st_processed_at := now |}
    | Some pdfData =>
        {| StatelessAPIClientWrapper.st_file_id := fileId;
           StatelessAPIClientWrapper.st_status := "completed";
           StatelessAPIClientWrapper.st_filename := filename pdfData;
           StatelessAPIClientWrapper.st_page_count := page_count pdfData;
           StatelessAPIClientWrapper.st_chunk_count := chunk_count pdfData;
           StatelessAPIClientWrapper.st_processed_at := now |}
    end.
Proof.
  unfold StatelessAPIClientWrapper.getFileStatus, StatelessAPIClient.getPDFData.
  destruct (StatelessAPIClient.storedPDFData this !! fileId); split; reflexivity.
Qed.

(** The stateless [load] either constructs a session or fails at
    construction; it has no store to miss. *)
Lemma load_stateless_cases (request : StatelessChatRequest) :
  (exists s, Core.load_stateless request = Core.Ok s) \/
  Core.load_stateless request = Core.Err Core.ConstructionError.
Proof.
  unfold Core.load_stateless, Core.new_session.
  destruct (_ =? _); [left; eauto | right; reflexivity].
Qed.

(** C7: in stateless mode, a chat call for an identifier with no stored
    payload fails at the caller with the data-missing error and issues no
    request ([sendMessage] rejects, [streamChat] calls [onError]); for a
    stored identifier the one request issued carries the chunks, the
    embeddings and the chunk metadata of the retained payload.  The
    server-side [load] of this mode never answers not-found. *)
Theorem stateless_chat_needs_retained_payload
    (JSON_parse : string -> option StreamEvent) (caller : Caller)
    (this : StatelessAPIClient.t) (fileId message : string)
    (history : list ChatMessage) (apiKey : string)
    (post : HttpRequest -> Promise ChatResponse) (outcome : FetchOutcome) :
  let sent := StatelessAPIClient.sendMessage this fileId message history apiKey post in
  let streamed :=
    StatelessAPIClient.streamChat JSON_parse caller this fileId message history apiKey outcome in
  match StatelessAPIClient.storedPDFData this !! fileId with
  | None =>
      issued sent = [] /\
      settled sent = Rejected StatelessAPIClient.not_found /\
      streamed = ([], [onError StatelessAPIClient.not_found])
  | Some pdfData =>
      let request :=
        {| req_message := message;
           req_chunks := chunks pdfData;
           req_embeddings := embeddings pdfData;
           req_chunk_metadata := chunk_metadata pdfData;
           req_history := history |} in
      issued sent = [POST_stateless_chat_stateless request apiKey] /\
      settled sent = post (POST_stateless_chat_stateless request apiKey) /\
      fst streamed = [POST_stateless_chat_stateless_stream request apiKey]
  end /\
  (forall request : StatelessChatRequest,
     Core.load_stateless request <> Core.Err Core.SessionNotFoundError).
Proof.
  split.
  - unfold StatelessAPIClient.sendMessage, StatelessAPIClient.streamChat.
    destruct (StatelessAPIClient.storedPDFData this !! fileId) as [pdfData|]; cbn;
      repeat split; reflexivity.
  - intros request.
    destruct (load_stateless_cases request) as [[s Hs]|Hs]; rewrite Hs; discriminate.
Qed.

(** ** Streams *)

Section StreamFacts.

Variable JSON_parse : string -> option StreamEvent.

Lemma await_patient st : aborted st = false -> await patient st = st.
Proof. intros Ha. destruct st; simplify_eq/=. reflexivity. Qed.

Lemma deliver_patient_aborted cb st :
  aborted st = false -> aborted (deliver patient cb st) = false.
Proof. intros Ha. cbn. by rewrite Ha. Qed.

Lemma api_forLines_patient lines st :
  aborted st = false ->
  aborted (fst (ApiClient.forLines JSON_parse patient lines st)) = false.
Proof.
  revert st. induction lines as [|line rest IH]; intros st Ha; [done|].
  cbn [ApiClient.forLines].
  repeat (case_match; try done);
    first [ by apply IH; try apply deliver_patient_aborted
          | by apply deliver_patient_aborted ].
Qed.

(** The loop over the lines is sequential: it runs the first batch and,
    unless that returned, the second. *)
Lemma api_forLines_app caller l1 l2 st :
  ApiClient.forLines JSON_parse caller (l1 ++ l2) st =
  let '(st', returned) := ApiClient.forLines JSON_parse caller l1 st in
  if returned then (st', true) else ApiClient.forLines JSON_parse caller l2 st'.
Proof.
  revert st. induction l1 as [|line rest IH]; intros st; [reflexivity|].
  cbn [app ApiClient.forLines].
  repeat (case_match; try done); simplify_eq; rewrite IH; by repeat case_match; simplify_eq.
Qed.

(** With a caller that does not abort, the buffered reader of [ApiClient]
    handles exactly the complete lines of the whole body text, however the
    network cut it into reads. *)
Lemma api_readStream_lines chunks failure buffer st :
  aborted st = false ->
  Js.split_nl buffer = [buffer] ->
  ApiClient.readStream JSON_parse patient chunks failure buffer st =
  let '(st', returned) :=
    ApiClient.forLines JSON_parse patient
      (removelast (Js.split_nl (buffer +:+ Js.concat chunks))) st in
  if returned then st'
  else deliver patient (match failure with None => onComplete | Some e => onError e end) st'.
Proof.
  revert buffer st. induction chunks as [|chunk more IH]; intros buffer st Ha Hb.
  - cbn [ApiClient.readStream Js.concat foldr].
    rewrite await_patient, Ha, JsFacts.append_empty_r, Hb by done.
    cbn. by destruct failure.
  - assert (removelast (Js.split_nl (buffer +:+ Js.concat (chunk :: more))) =
            removelast (Js.split_nl (buffer +:+ chunk)) ++
            removelast (Js.split_nl
              (List.last (Js.split_nl (buffer +:+ chunk)) "" +:+ Js.concat more))) as ->.
    { cbn [Js.concat foldr]. fold (Js.concat more).
      rewrite <- JsFacts.append_assoc, JsFacts.split_nl_app.
      apply removelast_app, JsFacts.split_nl_nonempty. }
    cbn [ApiClient.readStream]; unfold Js.pop.
    rewrite await_patient, Ha by done.
    rewrite api_forLines_app.
    pose proof (api_forLines_patient
                  (removelast (Js.split_nl (buffer +:+ chunk))) st Ha) as Ha'.
    destruct (ApiClient.forLines JSON_parse patient
                (removelast (Js.split_nl (buffer +:+ chunk))) st) as [st' returned].
    destruct returned; [reflexivity|].
    apply IH; [exact Ha' | apply JsFacts.split_nl_last].
Qed.

(** The server-resident client is insensitive to how the network cuts
    the body into reads. *)
Lemma api_readStream_chunking chunks1 chunks2 failure :
  Js.concat chunks1 = Js.concat chunks2 ->
  ApiClient.readStream JSON_parse patient chunks1 failure "" start =
  ApiClient.readStream JSON_parse patient chunks2 failure "" start.
Proof.
  intros Heq. rewrite !api_readStream_lines by done. by rewrite Heq.
Qed.

(** *** A well-formed stream through the server-resident client *)

Section Delivery.

(** The JSON encoder of the server. *)
Variable payload : StreamEvent -> string.

Lemma sse_lines p rest :
  Js.split_nl p = [p] ->
  Js.split_nl (Wire.sse p +:+ rest) = ("data: " +:+ p) :: "" :: Js.split_nl rest.
Proof.
  intros Hp. unfold Wire.sse, Wire.nl.
  replace (("data: " +:+ p +:+ String Js.newline "" +:+ String Js.newline "") +:+ rest)
    with (("data: " +:+ p) +:+ String Js.newline (String Js.newline rest)).
  - rewrite JsFacts.split_nl_line; [reflexivity|].
    repeat (apply JsFacts.split_nl_cons; [reflexivity|]). exact Hp.
  - rewrite !JsFacts.append_assoc. reflexivity.
Qed.

Lemma body_lines events :
  Forall (Wire.well_encoded JSON_parse payload) events ->
  removelast (Js.split_nl (Wire.body_text payload events)) =
  flat_map (fun e => ["data: " +:+ payload e; ""]) events ++ ["data: [DONE]"; ""].
Proof.
  unfold Wire.body_text. induction 1 as [|e events (_ & Hline & _) _ IH]; [reflexivity|].
  cbn [map Js.concat foldr flat_map]. fold (Js.concat (map (fun e => Wire.sse (payload e)) events)).
  rewrite JsFacts.append_assoc, sse_lines by exact Hline.
  set (rest := Js.concat (map (fun e => Wire.sse (payload e)) events)
                 +:+ Wire.sse "[DONE]") in *.
  pose proof (JsFacts.split_nl_nonempty rest) as Hne.
  destruct (Js.split_nl rest) as [|h t]; [done|].
  cbn [removelast app]. cbn [removelast] in IH. rewrite IH. reflexivity.
Qed.

Lemma forLines_body events st :
  Forall (Wire.well_encoded JSON_parse payload) events ->
  aborted st = false ->
  ApiClient.forLines JSON_parse patient
    (flat_map (fun e => ["data: " +:+ payload e; ""]) events ++ ["data: [DONE]"; ""]) st =
  ({| delivered := delivered st ++ map onMessage events ++ [onComplete];
      aborted := false |}, true).
Proof.
  intros Hall. revert st.
  induction Hall as [|e events (Hparse & _ & Htrim & Hmarker & Hempty) _ IH]; intros st Ha.
  { vm_compute. destruct st as [d a]. cbn in Ha. by rewrite Ha. }
  cbn [flat_map app ApiClient.forLines].
  rewrite JsFacts.startsWith_append.
  change 6 with (String.length "data: "). rewrite JsFacts.slice_append, Htrim.
  destruct (String.eqb_spec (payload e) "[DONE]") as [Hm|_]; [done|].
  unfold Js.truthy.
  destruct (String.eqb_spec (payload e) "") as [Hm|_]; [done|].
  cbn [negb]. rewrite Hparse.
  change (Js.startsWith "data: " "") with false. cbn iota.
  rewrite IH by (cbn; by rewrite Ha).
  cbn. by rewrite <- app_assoc.
Qed.

(** However the network cuts a well-formed stream into reads, the
    server-resident client hands its caller the events in their order,
    then the completion, and nothing else. *)
Lemma api_delivers_in_order events chunks :
  Forall (Wire.well_encoded JSON_parse payload) events ->
  Js.concat chunks = Wire.body_text payload events ->
  delivered (ApiClient.readStream JSON_parse patient chunks None "" start) =
  map onMessage events ++ [onComplete].
Proof.
  intros Hall Hbody. rewrite api_readStream_lines by done.
  change ("" +:+ Js.concat chunks) with (Js.concat chunks).
  rewrite Hbody, body_lines, forLines_body by done. reflexivity.
Qed.

End Delivery.

End StreamFacts.

(** The lemma at work: a content event and the sources event, cut by the
    network inside the blank line and inside the sources line. *)
Example api_delivers_a_cut_stream :
  delivered (ApiClient.readStream Wire.parse_known patient
               ["data: " +:+ Wire.json_content "A" +:+ Wire.nl;
                Wire.nl +:+ "data: " +:+ Wire.json_sources_head;
                Wire.json_sources_tail +:+ Wire.nl +:+ Wire.nl +:+ Wire.sse "[DONE]"]
               None "" start) =
  [onMessage (Wire.content_event "A");
   onMessage (Wire.sources_event [Wire.one_source]);
   onComplete].
Proof.
  apply (api_delivers_in_order Wire.parse_known Wire.encode_known
           [Wire.content_event "A"; Wire.sources_event [Wire.one_source]]).
  - repeat constructor; by vm_compute.
  - by vm_compute.
Qed.

(** Evaluate a stream on a literal body, given what [JSON.parse] makes of
    its payloads. *)
Ltac run_stream :=
  vm_compute;
  repeat (match goal with
          | H : ?parse ?text = _ |- context [?parse ?text] => rewrite H
          end; vm_compute);
  try reflexivity.

(** ** Cancellation *)

(** C6: the callbacks [StatelessAPIClient.streamChat] makes when the
    caller invokes the abort function inside its second callback and the
    three tokens, the sources and the end marker arrive in one read: the
    third content event, the sources event and the completion are still
    delivered, after the abort. *)
Theorem abort_in_callback_does_not_stop_the_read
    (JSON_parse : string -> option StreamEvent)
    (this : StatelessAPIClient.t) (fileId message : string)
    (history : list ChatMessage) (apiKey : string) (pdfData : ProcessedPDF) :
  StatelessAPIClient.storedPDFData this !! fileId = Some pdfData ->
  JSON_parse (Wire.json_content "A") = Some (Wire.content_event "A") ->
  JSON_parse (Wire.json_content "B") = Some (Wire.content_event "B") ->
  JSON_parse (Wire.json_content "C") = Some (Wire.content_event "C") ->
  JSON_parse Wire.json_sources = Some (Wire.sources_event [Wire.one_source]) ->
  snd (StatelessAPIClient.streamChat JSON_parse Wire.aborts_in_second_callback
         this fileId message history apiKey Wire.one_read_response) =
  [onMessage (Wire.content_event "A");
   onMessage (Wire.content_event "B");
   onMessage (Wire.content_event "C");
   onMessage (Wire.sources_event [Wire.one_source]);
   onComplete].
Proof.
  intros Hstored HA HB HC HS.
  unfold StatelessAPIClient.streamChat. rewrite Hstored. cbn [snd].
  vm_compute in HA, HB, HC, HS. run_stream.
Qed.

Lemma abort_in_callback_does_not_stop_the_read_witness :
  snd (StatelessAPIClient.streamChat Wire.parse_known Wire.aborts_in_second_callback
         Wire.a_client "f1" "why?" [] "sk-key" Wire.one_read_response) =
  [onMessage (Wire.content_event "A");
   onMessage (Wire.content_event "B");
   onMessage (Wire.content_event "C");
   onMessage (Wire.sources_event [Wire.one_source]);
   onComplete].
Proof.
  apply (abort_in_callback_does_not_stop_the_read Wire.parse_known Wire.a_client
           "f1" "why?" [] "sk-key" Wire.a_payload); reflexivity.
Defined.

(** Once a read finds the request aborted, the stateless client makes no
    further callback: no content, no sources, no error, no completion. *)
Lemma no_callback_after_an_aborted_read
    (JSON_parse : string -> option StreamEvent) (caller : Caller)
    (chunks : list string) (failure : option Error) (st : Stream) :
  aborted (await caller st) = true ->
  delivered (StatelessAPIClient.readStream JSON_parse caller chunks failure st) = delivered st.
Proof.
  intros Ha. destruct chunks; cbn [StatelessAPIClient.readStream]; rewrite Ha; reflexivity.
Qed.

(** ** The two modes on the same response *)

(** C2: the two clients on one and the same streamed response.  When
    the body arrives in one read both deliver the sources event and the
    completion.  When the network cuts the sources line in two reads, the
    server-resident client still delivers the sources event and the
    stateless client delivers none: the retrieved chunks and their scores
    reach the caller in one mode and not in the other. *)
Theorem modes_differ_on_a_cut_line
    (JSON_parse : string -> option StreamEvent)
    (this : StatelessAPIClient.t) (request : ChatRequest) (apiKey : string)
    (pdfData : ProcessedPDF) :
  StatelessAPIClient.storedPDFData this !! cr_file_id request = Some pdfData ->
  JSON_parse Wire.json_sources = Some (Wire.sources_event [Wire.one_source]) ->
  JSON_parse Wire.json_sources_head = None ->
  let regular := ApiClient.streamChat JSON_parse patient request apiKey in
  let stateless := StatelessAPIClientWrapper.streamChat JSON_parse patient this request apiKey in
  snd (regular Wire.uncut_response) =
    [onMessage (Wire.sources_event [Wire.one_source]); onComplete] /\
  snd (stateless Wire.uncut_response) =
    [onMessage (Wire.sources_event [Wire.one_source]); onComplete] /\
  snd (regular Wire.cut_response) =
    [onMessage (Wire.sources_event [Wire.one_source]); onComplete] /\
  snd (stateless Wire.cut_response) = [onComplete] /\
  snd (regular Wire.cut_response) <> snd (stateless Wire.cut_response).
Proof.
  intros Hstored Hwhole Hhead. cbn zeta.
  unfold StatelessAPIClientWrapper.streamChat, StatelessAPIClient.streamChat,
    ApiClient.streamChat.
  rewrite Hstored. cbn [snd].
  vm_compute in Hwhole, Hhead.
  assert (delivered (ApiClient.afterFetch JSON_parse patient Wire.cut_response) =
            [onMessage (Wire.sources_event [Wire.one_source]); onComplete]) as ->
    by run_stream.
  assert (delivered (StatelessAPIClient.afterFetch JSON_parse patient Wire.cut_response) =
            [onComplete]) as ->
    by run_stream.
  split_and!; [run_stream | run_stream | reflexivity | reflexivity | discriminate].
Qed.

Lemma modes_differ_on_a_cut_line_witness :
  let request := {| cr_file_id := "f1"; cr_message := "why?"; cr_history := [] |} in
  let regular := ApiClient.streamChat Wire.parse_known patient request "sk-key" in
  let stateless :=
    StatelessAPIClientWrapper.streamChat Wire.parse_known patient Wire.a_client request "sk-key" in
  snd (regular Wire.uncut_response) =
    [onMessage (Wire.sources_event [Wire.one_source]); onComplete] /\
  snd (stateless Wire.uncut_response) =
    [onMessage (Wire.sources_event [Wire.one_source]); onComplete] /\
  snd (regular Wire.cut_response) =
    [onMessage (Wire.sources_event [Wire.one_source]); onComplete] /\
  snd (stateless Wire.cut_response) = [onComplete] /\
  snd (regular Wire.cut_response) <> snd (stateless Wire.cut_response).
Proof.
  apply (modes_differ_on_a_cut_line Wire.parse_known Wire.a_client
           {| cr_file_id := "f1"; cr_message := "why?"; cr_history := [] |} "sk-key"
           Wire.a_payload); reflexivity.
Defined.

(** ** Upload validation *)

(** C9, as stated, fails: a PDF of 1024 bytes offered while no API key is
    set is not submitted; the user is told that a key is required. *)
Lemma accepted_file_without_key_is_not_submitted :
  let file := {| file_name := "a.pdf"; file_type := "application/pdf"; file_size := 1024 |} in
  file_type file = "application/pdf" /\
  (file_size file <= 10 * 1024 * 1024)%Z /\
  PDFUpload.handleFileUpload None file PDFUpload.initial =
    (PDFUpload.setError (Some "API key is required") PDFUpload.initial, None) /\
  PDFUpload.upload_requests true (PDFUpload.handleFileUpload None file PDFUpload.initial) = [] /\
  PDFUpload.upload_requests false (PDFUpload.handleFileUpload None file PDFUpload.initial) = [].
Proof. cbn zeta. split_and!; try reflexivity. cbn. lia. Qed.

(** C9, amended: [handleFileUpload] rejects every file whose declared type
    is not [application/pdf] or whose size exceeds 10 * 1024 * 1024 bytes:
    an error is shown and no upload request is issued.  When an API key is
    set, a file of that type at or under the limit is submitted, with the
    key, through the client of the deployment; when no key is set nothing
    is submitted and the error asks for the key. *)
Theorem handleFileUpload_validates
    (apiKey : option string) (file : File) (st : PDFUpload.State) (isVercel : bool) :
  let r := PDFUpload.handleFileUpload apiKey file st in
  PDFUpload.maxSize = 10485760%Z /\
  (file_type file <> "application/pdf" \/ (file_size file > PDFUpload.maxSize)%Z ->
     (exists msg, PDFUpload.error (fst r) = Some msg) /\
     snd r = None /\
     PDFUpload.upload_requests isVercel r = []) /\
  (forall key, key_present apiKey = Some key ->
     file_type file = "application/pdf" ->
     (file_size file <= PDFUpload.maxSize)%Z ->
     PDFUpload.error (fst r) = None /\
     PDFUpload.isUploading (fst r) = true /\
     snd r = Some (file, key) /\
     PDFUpload.upload_requests isVercel r = [uploadPDF_request (api isVercel) file key]) /\
  (key_present apiKey = None ->
     r = (PDFUpload.setError (Some "API key is required") st, None)).
Proof.
  cbn zeta. unfold PDFUpload.upload_requests, PDFUpload.handleFileUpload.
  split; [reflexivity|]. split; [|split].
  - intros Hbad. destruct (key_present apiKey) as [key|]; cbn; [|by eauto].
    destruct (String.eqb_spec (file_type file) "application/pdf") as [Ht|Ht]; cbn;
      [|by eauto].
    destruct (Z.gtb_spec (file_size file) PDFUpload.maxSize); cbn; [by eauto|].
    destruct Hbad; [done | lia].
  - intros key -> Ht Hs. rewrite Ht. cbn.
    destruct (Z.gtb_spec (file_size file) PDFUpload.maxSize); [lia|]. done.
  - intros ->. reflexivity.
Qed.

Lemma handleFileUpload_validates_witness :
  let file := {| file_name := "a.pdf"; file_type := "application/pdf"; file_size := 10485760 |} in
  let r := PDFUpload.handleFileUpload (Some "sk-key") file PDFUpload.initial in
  PDFUpload.error (fst r) = None /\
  PDFUpload.isUploading (fst r) = true /\
  snd r = Some (file, "sk-key") /\
  PDFUpload.upload_requests true r = [POST_stateless_upload_process file "sk-key"].
Proof.
  cbn zeta.
  apply (handleFileUpload_validates (Some "sk-key")
           {| file_name := "a.pdf"; file_type := "application/pdf"; file_size := 10485760 |}
           PDFUpload.initial true).
  - reflexivity.
  - reflexivity.
  - unfold PDFUpload.maxSize. cbn. lia.
Defined.

(** ** The conversation history *)

Module ChatFacts.
Import ChatInterface.

Lemma contents_app_store h h' refs :
  Forall (fun r => r < length h) refs -> contents (h ++ h') refs = contents h refs.
Proof.
  unfold contents. induction 1 as [|r refs Hr _ IH]; [reflexivity|].
  cbn. rewrite IH, lookup_app_l by done. reflexivity.
Qed.

Lemma contents_same h h' refs :
  (forall r, r ∈ refs -> h' !! r = h !! r) -> contents h' refs = contents h refs.
Proof.
  unfold contents. induction refs as [|r refs IH]; intros Hsame; [reflexivity|].
  cbn. rewrite Hsame, IH; [done| |]; intros; try apply Hsame; set_solver.
Qed.

(** [updateLast] touches one object, the one the last reference points
    to, and keeps its role. *)
Lemma updateLast_length f st : length (updateLast f st) = length (store st).
Proof.
  unfold updateLast. repeat case_match; try done. by rewrite length_insert.
Qed.

Lemma updateLast_other f st a r :
  last (messages st) = Some a -> r <> a -> updateLast f st !! r = store st !! r.
Proof.
  intros Hl Hr. unfold updateLast. rewrite Hl.
  repeat case_match; try done. by rewrite list_lookup_insert_ne.
Qed.

Lemma updateLast_role f st a :
  (forall m, msg_role (f m) = msg_role m) ->
  last (messages st) = Some a ->
  msg_role <$> (updateLast f st !! a) = msg_role <$> (store st !! a).
Proof.
  intros Hf Hl. unfold updateLast. rewrite Hl.
  destruct (store st !! a) as [m|] eqn:Hm; [|by rewrite Hm].
  destruct (msg_role m) eqn:Hrole; [by rewrite Hm|].
  rewrite list_lookup_insert_eq by (by eapply lookup_lt_Some). cbn. by rewrite Hf.
Qed.

Lemma act_messages st a : messages (act st a) = messages st.
Proof.
  destruct a as [[event| |]| |]; cbn; try done.
  - unfold handleEvent. by repeat case_match.
  - unfold handleStopStreaming. by case_match.
Qed.

Lemma act_store_length st a : length (store (act st a)) = length (store st).
Proof.
  destruct a as [[event| |]| |]; cbn; try done.
  - unfold handleEvent. repeat case_match; cbn; try done; apply updateLast_length.
  - unfold handleStopStreaming. by case_match.
Qed.

Lemma act_store_other st a l r :
  last (messages st) = Some l -> r <> l -> store (act st a) !! r = store st !! r.
Proof.
  intros Hl Hr. destruct a as [[event| |]| |]; cbn; try done.
  - unfold handleEvent. repeat case_match; cbn; try done; by eapply updateLast_other.
  - unfold handleStopStreaming. by case_match.
Qed.

Lemma act_store_role st a l :
  last (messages st) = Some l ->
  msg_role <$> (store (act st a) !! l) = msg_role <$> (store st !! l).
Proof.
  intros Hl. destruct a as [[event| |]| |]; cbn; try done.
  - unfold handleEvent. repeat case_match; cbn; try done; by apply updateLast_role.
  - unfold handleStopStreaming. by case_match.
Qed.

(** Whatever happens after a submission, the message array keeps its
    references, the store keeps its size, every object but the last one
    keeps its value and the last one keeps its role. *)
Lemma actions_frame actions st l :
  last (messages st) = Some l ->
  let st' := fold_left act actions st in
  messages st' = messages st /\
  length (store st') = length (store st) /\
  (forall r, r <> l -> store st' !! r = store st !! r) /\
  msg_role <$> (store st' !! l) = msg_role <$> (store st !! l).
Proof.
  revert st. induction actions as [|a actions IH]; intros st Hl; [done|].
  cbn [fold_left].
  destruct (IH (act st a)) as (Hm & Hlen & Hother & Hrole);
    [by rewrite act_messages|].
  cbn zeta. rewrite Hm, Hlen, Hrole, act_messages, act_store_length.
  split_and!; try done.
  - intros r Hr. rewrite Hother by done. by eapply act_store_other.
  - by apply act_store_role.
Qed.

Lemma handleSubmit_accepted apiKey fileId st st' request key :
  handleSubmit apiKey fileId st = (st', Some (request, key)) ->
  let userMessage :=
    {| msg_role := user; msg_content := Js.trim (input st); msg_sources := None |} in
  let assistantMessage :=
    {| msg_role := assistant; msg_content := ""; msg_sources := Some [] |} in
  isStreaming st = false /\
  request = {| cr_file_id := fileId; cr_message := Js.trim (input st);
               cr_history := rendered st |} /\
  store st' = store st ++ [userMessage; assistantMessage] /\
  messages st' = messages st ++ [length (store st); S (length (store st))] /\
  isStreaming st' = true.
Proof.
  unfold handleSubmit. destruct (key_present apiKey); [|done].
  destruct (isStreaming st); [by rewrite orb_true_r|].
  destruct (negb _); [done|]. cbn. intros [= <- <- <-]. done.
Qed.

(** The answer is assembled in place: content events append their text
    to the last message, in the order of their arrival. *)
Lemma content_events_accumulate tokens st a m :
  last (messages st) = Some a ->
  store st !! a = Some m ->
  msg_role m = assistant ->
  store (handleAll (map (fun t => onMessage (Wire.content_event t)) tokens) st) !! a =
  Some {| msg_role := assistant;
          msg_content := msg_content m +:+ Js.concat tokens;
          msg_sources := msg_sources m |}.
Proof.
  revert st m. induction tokens as [|t tokens IH]; intros st m Hlast Hm Hrole.
  - cbn. rewrite JsFacts.append_empty_r, Hm. destruct m; cbn in *. by subst.
  - set (m1 := {| msg_role := assistant; msg_content := msg_content m +:+ t;
                  msg_sources := msg_sources m |}).
    assert (store (handle (onMessage (Wire.content_event t)) st) !! a = Some m1) as Hm1.
    { cbn. unfold updateLast. rewrite Hlast, Hm, Hrole.
      rewrite list_lookup_insert_eq by (by eapply lookup_lt_Some). reflexivity. }
    unfold handleAll in *. cbn [map fold_left].
    rewrite (IH _ m1); [|exact Hlast|exact Hm1|reflexivity].
    cbn. by rewrite JsFacts.append_assoc.
Qed.

Lemma text_cons a actions :
  Answer.text (a :: actions) = default "" (Answer.token a) +:+ Answer.text actions.
Proof. unfold Answer.text. cbn [omap list_omap]. by destruct (Answer.token a). Qed.

(** One action on the answer in flight. *)
Lemma act_fill st x a m :
  last (messages st) = Some a ->
  store st !! a = Some m ->
  msg_role m = assistant ->
  store (act st x) !! a =
  Some {| msg_role := assistant;
          msg_content := msg_content m +:+ default "" (Answer.token x);
          msg_sources := Answer.sources_after (msg_sources m) x |}.
Proof.
  intros Hlast Hm Hrole.
  assert (Some m = Some {| msg_role := assistant; msg_content := msg_content m +:+ "";
                           msg_sources := msg_sources m |}) as Hsame.
  { rewrite JsFacts.append_empty_r. destruct m; cbn in *. by subst. }
  assert (a < length (store st)) as Hlt by (by eapply lookup_lt_Some).
  destruct x as [[event| |]| |]; cbn [act handle Answer.token Answer.sources_after];
    try (cbn; by rewrite Hm).
  - unfold handleEvent.
    destruct (String.eqb (ev_type event) "content").
    + cbn [store]. unfold updateLast. rewrite Hlast, Hm, Hrole.
      rewrite list_lookup_insert_eq by done. cbn. by rewrite ?Hrole.
    + destruct (String.eqb (ev_type event) "sources").
      * cbn [store default]. unfold updateLast. rewrite Hlast, Hm, Hrole.
        rewrite list_lookup_insert_eq by done. cbn.
        by rewrite ?Hrole, JsFacts.append_empty_r.
      * destruct (String.eqb (ev_type event) "error"); cbn [store default]; by rewrite Hm.
  - unfold handleStopStreaming. destruct (abortStreamRef st); cbn [store default];
      by rewrite Hm.
Qed.

(** The answer is filled in place: after any actions, the object the
    last reference points to holds the text of the content events, in
    the order of their arrival, after the text it had, and the sources of
    the last sources event. *)
Lemma actions_fill actions st a m :
  last (messages st) = Some a ->
  store st !! a = Some m ->
  msg_role m = assistant ->
  store (fold_left act actions st) !! a =
  Some {| msg_role := assistant;
          msg_content := msg_content m +:+ Answer.text actions;
          msg_sources := Answer.sources actions (msg_sources m) |}.
Proof.
  revert st m. induction actions as [|x actions IH]; intros st m Hlast Hm Hrole.
  - cbn. rewrite JsFacts.append_empty_r, Hm. destruct m; cbn in *. by subst.
  - cbn [fold_left].
    assert (last (messages (act st x)) = Some a) as Hlast' by (by rewrite act_messages).
    rewrite (IH (act st x) _ Hlast' (act_fill st x a m Hlast Hm Hrole) eq_refl).
    cbn [msg_content msg_sources]. by rewrite text_cons, JsFacts.append_assoc.
Qed.

End ChatFacts.

(** A question that completes: the tokens and the sources end up in the
    answer that was appended at submission. *)
Example answer_of_a_completed_question :
  let submitted :=
    fst (ChatInterface.handleSubmit (Some "sk-key") "f1"
           (ChatInterface.setInput "hi" ChatInterface.initial)) in
  let completed :=
    ChatInterface.handleAll
      [onMessage (Wire.content_event "A"); onMessage (Wire.content_event "B");
       onMessage (Wire.sources_event [Wire.one_source]); onComplete] submitted in
  ChatInterface.rendered completed =
    [{| msg_role := user; msg_content := "hi"; msg_sources := None |};
     {| msg_role := assistant; msg_content := "AB";
        msg_sources := Some [Wire.one_source] |}] /\
  ChatInterface.isStreaming completed = false /\
  ChatInterface.currentSources completed = [Wire.one_source].
Proof. cbn zeta. split_and!; reflexivity. Qed.

(** C8, as stated, fails: the turn is appended when the question is
    submitted, not when it completes.  Right after the submission of
    ["hi"], with the question in flight and no event received, the
    conversation already holds the question and an empty answer; and when
    that question then fails, the history sent with the next question
    holds this turn, which never completed. *)
Lemma turn_is_appended_before_completion :
  let typed := ChatInterface.setInput "hi" ChatInterface.initial in
  let first := ChatInterface.handleSubmit (Some "sk-key") "f1" typed in
  let failed :=
    ChatInterface.setInput "again"
      (ChatInterface.handle (onError {| error_message := "HTTP error! status: 500" |})
         (fst first)) in
  let second := ChatInterface.handleSubmit (Some "sk-key") "f1" failed in
  ChatInterface.isStreaming (fst first) = true /\
  ChatInterface.rendered (fst first) =
    [{| msg_role := user; msg_content := "hi"; msg_sources := None |};
     {| msg_role := assistant; msg_content := ""; msg_sources := Some [] |}] /\
  snd first =
    Some ({| cr_file_id := "f1"; cr_message := "hi"; cr_history := [] |}, "sk-key") /\
  snd second =
    Some ({| cr_file_id := "f1"; cr_message := "again";
             cr_history :=
               [{| msg_role := user; msg_content := "hi"; msg_sources := None |};
                {| msg_role := assistant; msg_content := ""; msg_sources := Some [] |}] |},
          "sk-key").
Proof. cbn zeta. split_and!; reflexivity. Qed.

(** C8, amended: the history handed to [streamChat] is only read: it is
    the conversation as it stood before the submission, it does not hold
    the new question, and no event, keystroke or stop that follows changes
    a message object it refers to.  The caller appends the question and an
    empty answer at submission, while the question is in flight, and
    fills that answer in place: after any events, keystrokes and stops the
    answer holds the texts of the content events received, joined in the
    order of their arrival, and the sources of the last sources event.  So
    whatever happens to the question, the conversation afterwards, which
    is the history of the next question, is the history of this one
    followed by this question and its answer. *)
Theorem history_is_read_only
    (apiKey : option string) (fileId : string) (st st' : ChatInterface.State)
    (request : ChatRequest) (key : string) (actions : list ChatInterface.Action) :
  ChatInterface.well_formed st ->
  ChatInterface.handleSubmit apiKey fileId st = (st', Some (request, key)) ->
  let question :=
    {| msg_role := user; msg_content := cr_message request; msg_sources := None |} in
  let later := fold_left ChatInterface.act actions st' in
  cr_history request = ChatInterface.rendered st /\
  ChatInterface.isStreaming st' = true /\
  ChatInterface.rendered st' =
    cr_history request
      ++ [question; {| msg_role := assistant; msg_content := ""; msg_sources := Some [] |}] /\
  (forall r, r ∈ ChatInterface.messages st ->
     ChatInterface.store later !! r = ChatInterface.store st !! r) /\
  ChatInterface.contents (ChatInterface.store later) (ChatInterface.messages st)
    = cr_history request /\
  ChatInterface.rendered later
    = cr_history request
        ++ [question;
            {| msg_role := assistant; msg_content := Answer.text actions;
               msg_sources := Answer.sources actions (Some []) |}] /\
  ChatInterface.well_formed later.
Proof.
  intros Hwf Hsub.
  destruct (ChatFacts.handleSubmit_accepted _ _ _ _ _ _ Hsub)
    as (_ & -> & Hstore & Hmsgs & Hstreaming).
  cbn [cr_history cr_message]. cbn zeta.
  set (u := length (ChatInterface.store st)) in *.
  assert (last (ChatInterface.messages st') = Some (S u)) as Hlast.
  { rewrite Hmsgs. change [u; S u] with ([u] ++ [S u]).
    by rewrite app_assoc, last_snoc. }
  destruct (ChatFacts.actions_frame actions st' (S u) Hlast)
    as (Hm & Hlen & Hother & Hrole).
  assert (forall r, r ∈ ChatInterface.messages st -> r < u) as Hlt.
  { intros r Hr. unfold ChatInterface.well_formed in Hwf.
    rewrite Forall_forall in Hwf. by apply Hwf. }
  assert (forall r, r ∈ ChatInterface.messages st ->
            ChatInterface.store (fold_left ChatInterface.act actions st') !! r
            = ChatInterface.store st !! r) as Hframe.
  { intros r Hr. specialize (Hlt r Hr).
    rewrite Hother, Hstore by lia. by apply lookup_app_l. }
  assert (ChatInterface.rendered st' =
          ChatInterface.rendered st ++
            [{| msg_role := user; msg_content := Js.trim (ChatInterface.input st);
                msg_sources := None |};
             {| msg_role := assistant; msg_content := ""; msg_sources := Some [] |}]) as Hr'.
  { unfold ChatInterface.rendered, ChatInterface.contents.
    rewrite Hmsgs, Hstore, omap_app. f_equal.
    - by apply ChatFacts.contents_app_store.
    - cbn. rewrite !lookup_app_r by (fold u; lia). fold u.
      by replace (u - u) with 0 by lia; replace (S u - u) with 1 by lia. }
  assert (ChatInterface.store st' !! S u
          = Some {| msg_role := assistant; msg_content := ""; msg_sources := Some [] |})
    as Hempty.
  { rewrite Hstore, lookup_app_r by (fold u; lia). fold u.
    by replace (S u - u) with 1 by lia. }
  pose proof (ChatFacts.actions_fill actions st' (S u) _ Hlast Hempty eq_refl) as Hanswer.
  cbn [msg_content msg_sources] in Hanswer.
  change ("" +:+ Answer.text actions) with (Answer.text actions) in Hanswer.
  split_and!; try done.
  - by apply ChatFacts.contents_same.
  - unfold ChatInterface.rendered, ChatInterface.contents.
    rewrite Hm, Hmsgs, omap_app. f_equal.
    + by apply ChatFacts.contents_same.
    + cbn. rewrite Hanswer, Hother, Hstore by lia.
      rewrite lookup_app_r by (fold u; lia). fold u.
      by replace (u - u) with 0 by lia.
  - unfold ChatInterface.well_formed. rewrite Hm, Hlen, Hmsgs, Hstore, length_app.
    apply Forall_app. split.
    + eapply Forall_impl; [exact Hwf|]. cbn. intros; lia.
    + repeat constructor; fold u; cbn; lia.
Qed.

Lemma history_is_read_only_witness :
  let first :=
    fold_left ChatInterface.act
      [ChatInterface.Deliver (onMessage (Wire.content_event "A"));
       ChatInterface.Deliver onComplete]
      (fst (ChatInterface.handleSubmit (Some "sk-key") "f1"
              (ChatInterface.setInput "hi" ChatInterface.initial))) in
  let st := ChatInterface.setInput "more" first in
  let history :=
    [{| msg_role := user; msg_content := "hi"; msg_sources := None |};
     {| msg_role := assistant; msg_content := "A"; msg_sources := Some [] |}] in
  let request := {| cr_file_id := "f1"; cr_message := "more"; cr_history := history |} in
  let st' := fst (ChatInterface.handleSubmit (Some "sk-key") "f1" st) in
  let actions :=
    [ChatInterface.Deliver (onMessage (Wire.content_event "B"));
     ChatInterface.Deliver (onMessage (Wire.sources_event [Wire.one_source]));
     ChatInterface.Deliver (onMessage (Wire.content_event "C"));
     ChatInterface.Stop; ChatInterface.Typing "next"] in
  let question := {| msg_role := user; msg_content := "more"; msg_sources := None |} in
  let later := fold_left ChatInterface.act actions st' in
  ChatInterface.messages st = [0; 1] /\
  (cr_history request = ChatInterface.rendered st /\
   ChatInterface.isStreaming st' = true /\
   ChatInterface.rendered st' =
     history
       ++ [question; {| msg_role := assistant; msg_content := ""; msg_sources := Some [] |}] /\
   (forall r, r ∈ ChatInterface.messages st ->
      ChatInterface.store later !! r = ChatInterface.store st !! r) /\
   ChatInterface.contents (ChatInterface.store later) (ChatInterface.messages st)
     = history /\
   ChatInterface.rendered later
     = history
         ++ [question;
             {| msg_role := assistant; msg_content := Answer.text actions;
                msg_sources := Answer.sources actions (Some []) |}] /\
   ChatInterface.well_formed later) /\
  Answer.text actions = "BC" /\
  Answer.sources actions (Some []) = Some [Wire.one_source].
Proof.
  cbn zeta. split; [reflexivity|]. split; [|split; reflexivity].
  apply (history_is_read_only (Some "sk-key") "f1"
           (ChatInterface.setInput "more"
              (fold_left ChatInterface.act
                 [ChatInterface.Deliver (onMessage (Wire.content_event "A"));
                  ChatInterface.Deliver onComplete]
                 (fst (ChatInterface.handleSubmit (Some "sk-key") "f1"
                         (ChatInterface.setInput "hi" ChatInterface.initial)))))
           _
           {| cr_file_id := "f1"; cr_message := "more";
              cr_history :=
                [{| msg_role := user; msg_content := "hi"; msg_sources := None |};
                 {| msg_role := assistant; msg_content := "A"; msg_sources := Some [] |}] |}
           "sk-key").
  - repeat constructor.
  - reflexivity.
Defined.

(** ** Chunker *)

Module ChunkerFacts.
Import Core.

Section Windows.

Context {A : Type}.
Variables size step : nat.
Hypothesis step_positive : 0 < step.
Hypothesis step_le_size : step <= size.

(** Window [n] is the slice of [size] characters at offset [n * step]. *)
Lemma windows_from_lookup fuel (page : list A) n w :
  windows_from fuel size step page !! n = Some w ->
  w = take size (drop (n * step) page) /\ w <> [].
Proof.
  revert page n. induction fuel as [|fuel IH]; intros page n; [done|].
  cbn [windows_from]. destruct page as [|a page]; [done|].
  destruct (Nat.leb_spec (length (a :: page)) size) as [Hle|Hgt].
  - destruct n as [|n]; [|done]. intros [= <-]. by rewrite take_ge.
  - destruct n as [|n].
    + intros [= <-]. split; [done|]. destruct size; [lia|done].
    + intros Hn. apply IH in Hn as [-> Hne]. split; [|done].
      rewrite drop_drop. reflexivity.
Qed.

(** A window that has a successor did not reach the end of the page. *)
Lemma windows_from_next fuel (page : list A) n w' :
  windows_from fuel size step page !! S n = Some w' ->
  size < length (drop (n * step) page).
Proof.
  revert page n. induction fuel as [|fuel IH]; intros page n; [done|].
  cbn [windows_from]. destruct page as [|a page]; [done|].
  destruct (Nat.leb_spec (length (a :: page)) size) as [Hle|Hgt]; [done|].
  destruct n as [|n]; [done|].
  intros Hn. apply IH in Hn. rewrite drop_drop in Hn.
  by replace (S n * step) with (step + n * step) by lia.
Qed.

(** With fuel for the whole page, the last window ends where the page
    ends. *)
Lemma windows_from_last fuel (page : list A) :
  length page <= fuel -> page <> [] ->
  exists w, last (windows_from fuel size step page) = Some w /\
    (length (windows_from fuel size step page) - 1) * step + length w = length page.
Proof.
  revert page. induction fuel as [|fuel IH]; intros page Hfuel Hne.
  { destruct page; [done|cbn in Hfuel; lia]. }
  cbn [windows_from]. destruct page as [|a page]; [done|].
  destruct (Nat.leb_spec (length (a :: page)) size) as [Hle|Hgt].
  - exists (a :: page). split; [done|]. cbn. lia.
  - destruct (IH (drop step (a :: page))) as (w & Hlast & Hlen).
    + rewrite length_drop. cbn in *. lia.
    + intros Hnil. apply (f_equal length) in Hnil.
      rewrite length_drop in Hnil. cbn in *. lia.
    + exists w. rewrite last_cons, Hlast. split; [done|].
      rewrite length_drop in Hlen. cbn [length] in *.
      destruct (windows_from fuel size step (drop step (a :: page))); [done|].
      cbn [length] in *. nia.
Qed.

End Windows.

End ChunkerFacts.

(** C1: for a page and parameters with [overlap < chunk_size], window [n]
    of the chunker is the slice of [chunk_size] characters of the page at
    offset [n * (chunk_size - overlap)], it is not empty and has at most
    [chunk_size] characters; a window that has a successor has exactly
    [chunk_size] characters and its last [overlap] characters are the
    first [overlap] characters of the successor; the last window ends
    where the page ends, and an empty page has no window.  With
    [chunk_size = 10] and [overlap = 3] the page ["ABCDEFGHIJKLMNO"]
    gives exactly the chunks ["ABCDEFGHIJ"] and ["HIJKLMNO"], the second
    one starting at offset 7. *)
Theorem chunk_windows_overlap (page : string) (chunk_size overlap : nat) :
  overlap < chunk_size ->
  let chars := list_ascii_of_string page in
  let ws := Core.windows chunk_size overlap chars in
  let step := chunk_size - overlap in
  Core.chunk_page chunk_size overlap page = map string_of_list_ascii ws /\
  (forall n w, ws !! n = Some w ->
     w = take chunk_size (drop (n * step) chars) /\ w <> [] /\ length w <= chunk_size) /\
  (forall n w w', ws !! n = Some w -> ws !! S n = Some w' ->
     length w = chunk_size /\
     drop step w = take overlap w' /\
     length (take overlap w') = overlap) /\
  (chars <> [] ->
     exists w, last ws = Some w /\ (length ws - 1) * step + length w = length chars) /\
  (chars = [] -> ws = []) /\
  Core.chunk_page 10 3 "ABCDEFGHIJKLMNO" = ["ABCDEFGHIJ"; "HIJKLMNO"] /\
  Core.windows 10 3 (list_ascii_of_string "ABCDEFGHIJKLMNO") !! 1 =
    Some (take 10 (drop 7 (list_ascii_of_string "ABCDEFGHIJKLMNO"))).
Proof.
  intros Hlt. cbn zeta. unfold Core.windows.
  set (chars := list_ascii_of_string page).
  set (step := chunk_size - overlap).
  assert (0 < step) as Hstep by (unfold step; lia).
  assert (step <= chunk_size) as Hle by (unfold step; lia).
  split_and!; try reflexivity.
  - intros n w Hw.
    destruct (ChunkerFacts.windows_from_lookup chunk_size step Hstep Hle _ _ _ _ Hw)
      as [-> Hne].
    split_and!; try done. rewrite length_take. lia.
  - intros n w w' Hw Hw'.
    pose proof (ChunkerFacts.windows_from_next chunk_size step Hstep Hle _ _ _ _ Hw') as Hlong.
    destruct (ChunkerFacts.windows_from_lookup chunk_size step Hstep Hle _ _ _ _ Hw)
      as [-> _].
    destruct (ChunkerFacts.windows_from_lookup chunk_size step Hstep Hle _ _ _ _ Hw')
      as [-> _].
    rewrite !length_take, take_take, !length_drop in *.
    rewrite skipn_firstn_comm, drop_drop.
    replace (S n * step) with (n * step + step) by lia.
    replace (overlap `min` chunk_size) with overlap by lia.
    replace (chunk_size - step) with overlap by (unfold step; lia).
    split_and!; try done; lia.
  - intros Hne. by apply ChunkerFacts.windows_from_last.
  - intros ->. reflexivity.
Qed.

Lemma chunk_windows_overlap_witness :
  Core.chunk_page 10 3 "ABCDEFGHIJKLMNO" = ["ABCDEFGHIJ"; "HIJKLMNO"] /\
  Core.windows 10 3 (list_ascii_of_string "ABCDEFGHIJKLMNO") !! 1 =
    Some (take 10 (drop 7 (list_ascii_of_string "ABCDEFGHIJKLMNO"))).
Proof.
  pose proof (chunk_windows_overlap "ABCDEFGHIJKLMNO" 10 3) as H.
  cbn zeta in H. apply H. lia.
Defined.

(** ** Answer synthesizer *)

Module SynthesizerFacts.
Import Core.

Lemma run_terminal s inputs : terminal s -> run s inputs = (s, []).
Proof.
  intros Ht. induction inputs as [|i rest IH]; [reflexivity|].
  cbn [run].
  assert (step s i = (s, [])) as -> by (destruct Ht as [-> | [-> | ->]]; by destruct i).
  by rewrite IH.
Qed.

Lemma forwarded_terminal s inputs : terminal s -> forwarded s inputs = [].
Proof.
  intros Ht. induction inputs as [|i rest IH]; [reflexivity|].
  cbn [forwarded].
  assert (step s i = (s, [])) as Hs by (destruct Ht as [-> | [-> | ->]]; by destruct i).
  rewrite Hs. cbn [fst]. rewrite IH.
  destruct Ht as [-> | [-> | ->]]; by destruct i.
Qed.

(** While generating, tokens become content events in their order of
    arrival, and the end of the backend stream closes the sequence. *)
Lemma run_generating l inputs events :
  run (Generating l) inputs = (Complete, events) ->
  events = map content (forwarded (Generating l) inputs) ++ [sources l; done].
Proof.
  revert events. induction inputs as [|i rest IH]; intros events; [done|].
  cbn [run forwarded].
  destruct i as [|r|t| | |]; cbn [step fst].
  - destruct (run (Generating l) rest) as [s out] eqn:Hrun. intros [= -> <-].
    by apply IH.
  - destruct (run (Generating l) rest) as [s out] eqn:Hrun. intros [= -> <-].
    by apply IH.
  - destruct (run (Generating l) rest) as [s out] eqn:Hrun. intros [= -> <-].
    cbn. f_equal. by apply IH.
  - rewrite run_terminal, forwarded_terminal by (unfold terminal; auto).
    by intros [= <-].
  - rewrite run_terminal by (unfold terminal; auto). done.
  - rewrite run_terminal by (unfold terminal; auto). done.
Qed.

Lemma run_retrieving inputs events :
  run Retrieving inputs = (Complete, events) ->
  exists l, In (retrieved (Ok l)) inputs /\
    events = map content (forwarded Retrieving inputs) ++ [sources l; done].
Proof.
  revert events. induction inputs as [|i rest IH]; intros events; [done|].
  cbn [run forwarded].
  destruct i as [|r|t| | |]; cbn [step fst].
  1,3,4,5: destruct (run Retrieving rest) as [s out] eqn:Hrun; intros [= -> <-];
    destruct (IH out eq_refl) as (l & Hin & ->); exists l; split; [by right|done].
  - destruct r as [l|e]; cbn [step fst].
    + destruct (run (Generating l) rest) as [s out] eqn:Hrun. intros [= -> <-].
      exists l. split; [by left|]. by apply run_generating.
    + rewrite run_terminal by (unfold terminal; auto). done.
  - rewrite run_terminal by (unfold terminal; auto). done.
Qed.

End SynthesizerFacts.

(** C3: every run of the synthesizer that ends in [Complete] emits the
    tokens that arrived during generation as content events, in their
    order of arrival, then one sources event carrying the retrieved
    chunks, then the completion marker, and nothing else. *)
Theorem successful_question_events (inputs : list Core.Input) (events : list Core.Event) :
  Core.run Core.Idle inputs = (Core.Complete, events) ->
  exists l, In (Core.retrieved (Core.Ok l)) inputs /\
    events = map Core.content (Core.forwarded Core.Idle inputs)
               ++ [Core.sources l; Core.done].
Proof.
  revert events. induction inputs as [|i rest IH]; intros events; [done|].
  cbn [Core.run Core.forwarded].
  destruct i as [|r|t| | |]; cbn [Core.step fst].
  2,3,4,5,6: destruct (Core.run Core.Idle rest) as [s out] eqn:Hrun; intros [= -> <-];
    destruct (IH out eq_refl) as (l & Hin & ->); exists l; split; [by right|done].
  destruct (Core.run Core.Retrieving rest) as [s out] eqn:Hrun. intros [= -> <-].
  destruct (SynthesizerFacts.run_retrieving rest out Hrun) as (l & Hin & ->).
  exists l. split; [by right|done].
Qed.

Lemma successful_question_events_witness :
  exists l,
    In (Core.retrieved (Core.Ok l))
       [Core.ask; Core.retrieved (Core.Ok []); Core.token "A"; Core.token "B";
        Core.token "C"; Core.backend_done] /\
    [Core.content "A"; Core.content "B"; Core.content "C"; Core.sources []; Core.done] =
    map Core.content
        (Core.forwarded Core.Idle
           [Core.ask; Core.retrieved (Core.Ok []); Core.token "A"; Core.token "B";
            Core.token "C"; Core.backend_done])
      ++ [Core.sources l; Core.done].
Proof.
  apply (successful_question_events
           [Core.ask; Core.retrieved (Core.Ok []); Core.token "A"; Core.token "B";
            Core.token "C"; Core.backend_done]).
  reflexivity.
Defined.

(** ** Retriever *)

Module RetrieverFacts.
Import Core.

Section Ranking.

Variable similarity : EmbeddingVector -> EmbeddingVector -> Q.
Variable query_vector : EmbeddingVector.

Abbreviation score := (score_of similarity query_vector).
Abbreviation precedes := (before similarity query_vector).
Abbreviation insert_one := (insert_ranked similarity query_vector).

(** No two candidates precede each other. *)
Lemma before_asymmetric a b : precedes a b -> precedes b a -> False.
Proof.
  unfold before. intros [Hab|[Hab Hi]] [Hba|[Hba Hj]].
  - eapply Qlt_irrefl, Qlt_trans; eauto.
  - rewrite Hba in Hab. by eapply Qlt_irrefl.
  - rewrite Hab in Hba. by eapply Qlt_irrefl.
  - lia.
Qed.

Lemma insert_ranked_perm x l : Permutation (insert_one x l) (x :: l).
Proof.
  induction l as [|y l IH]; [done|]. cbn.
  destruct (Qlt_le_dec (score x) (score y)); [|done].
  rewrite IH. apply perm_swap.
Qed.

(** Inserting a candidate whose ordinal is below all those present
    keeps the list in order. *)
Lemma insert_ranked_sorted x l :
  StronglySorted precedes l ->
  Forall (fun y => fst x < fst y) l ->
  StronglySorted precedes (insert_one x l).
Proof.
  induction 1 as [|y l Hsorted IH Hy]; intros Hord.
  { cbn. repeat constructor. }
  apply Forall_cons in Hord as [Hxy Hord].
  cbn. destruct (Qlt_le_dec (score x) (score y)) as [Hlt|Hle].
  - constructor; [by apply IH|].
    rewrite insert_ranked_perm. constructor; [by left|done].
  - assert (precedes x y) as Hfirst.
    { destruct (Qle_lt_or_eq _ _ Hle) as [Hlt|Heq]; [by left|right].
      split; [by symmetry|done]. }
    constructor; [by constructor|]. constructor; [done|].
    rewrite Forall_forall in Hy, Hord |- *. intros z Hz.
    destruct (Hy z Hz) as [Hzy|[Heq Hi]].
    + left. eapply Qlt_le_trans; eauto.
    + destruct (Qle_lt_or_eq _ _ Hle) as [Hlt|Heq'].
      * left. by rewrite <- Heq.
      * right. split; [by rewrite <- Heq', Heq | by apply Hord].
Qed.

Lemma ranking_from_sorted start (l : list (Chunk * EmbeddingVector)) :
  let ranked := foldr insert_one [] (zip (seq start (length l)) l) in
  Permutation ranked (zip (seq start (length l)) l) /\
  StronglySorted precedes ranked /\
  Forall (fun y => start <= fst y) ranked.
Proof.
  revert start. induction l as [|c l IH]; intros start.
  { cbn. split_and!; constructor. }
  cbn [length seq zip zip_with foldr].
  destruct (IH (S start)) as (Hperm & Hsorted & Hord). cbn zeta.
  split_and!.
  - rewrite insert_ranked_perm. by constructor.
  - apply insert_ranked_sorted; [done|].
    eapply Forall_impl; [exact Hord|]. cbn. intros; lia.
  - rewrite insert_ranked_perm. constructor; [cbn; lia|].
    eapply Forall_impl; [exact Hord|]. cbn. intros; lia.
Qed.

(** A list in order has its elements in order at any two positions. *)
Lemma sorted_lookup (l : list (nat * (Chunk * EmbeddingVector))) i j a b :
  StronglySorted precedes l -> i < j -> l !! i = Some a -> l !! j = Some b -> precedes a b.
Proof.
  intros Hsorted. revert i j. induction Hsorted as [|x l Hsorted IH Hx]; intros i j Hij Hi Hj.
  { done. }
  destruct j as [|j]; [lia|]. destruct i as [|i].
  - cbn in Hi, Hj. injection Hi as <-.
    rewrite Forall_forall in Hx. apply Hx. by eapply list_elem_of_lookup_2.
  - cbn in Hi, Hj. apply (IH i j); [lia|done..].
Qed.

Lemma sorted_take n (l : list (nat * (Chunk * EmbeddingVector))) :
  StronglySorted precedes l -> StronglySorted precedes (take n l).
Proof.
  intros Hsorted. revert n. induction Hsorted as [|x l Hsorted IH Hx]; intros [|n]; cbn;
    try constructor; [by apply IH|].
  rewrite Forall_forall in Hx |- *. intros z Hz. apply Hx.
  by eapply subseteq_take.
Qed.

(** The order admits one arrangement of a given collection. *)
Lemma sorted_perm_unique (l1 l2 : list (nat * (Chunk * EmbeddingVector))) :
  StronglySorted precedes l1 -> StronglySorted precedes l2 ->
  Permutation l1 l2 -> l1 = l2.
Proof.
  intros H1. revert l2. induction H1 as [|a l1 Hs1 IH Ha]; intros l2 H2 Hperm.
  { by apply Permutation_nil in Hperm. }
  destruct H2 as [|b l2 Hs2 Hb].
  { symmetry in Hperm. by apply Permutation_nil in Hperm. }
  assert (a = b) as <-.
  { assert (a ∈ b :: l2) as Hin1 by (rewrite <- Hperm; left).
    assert (b ∈ a :: l1) as Hin2 by (rewrite Hperm; left).
    apply elem_of_cons in Hin1 as [?|Hin1]; [done|].
    apply elem_of_cons in Hin2 as [?|Hin2]; [done|].
    rewrite Forall_forall in Ha, Hb.
    destruct (before_asymmetric a b); auto. }
  f_equal. apply IH; [done|]. by eapply Permutation_cons_inv.
Qed.

End Ranking.

End RetrieverFacts.

Lemma indexed_lookup {A : Type} (l : list A) (i : nat) (x : A) :
  (i, x) ∈ Core.indexed l -> l !! i = Some x.
Proof.
  unfold Core.indexed. intros Hin.
  apply list_elem_of_lookup in Hin as [j Hj].
  apply lookup_zip_with_Some in Hj as (i' & x' & [= -> ->] & Hseq & Hl).
  apply lookup_seq in Hseq as [-> _]. done.
Qed.

(** C5: [retrieve] is a function of the query vector, the candidates and
    [k], so two calls on identical inputs return identical sequences; and
    the ordering contract leaves it no choice.  Its result lists the first
    [min k (length candidates)] entries of the ranking; every entry is a
    candidate with its ordinal; scores never increase along the result and
    candidates with equal scores appear in their original ordinal order;
    any arrangement of the same candidates that respects this order yields
    the same result. *)
Theorem retrieve_deterministic_and_stable
    (similarity : Core.EmbeddingVector -> Core.EmbeddingVector -> Q)
    (query_vector : Core.EmbeddingVector)
    (candidates : list (Core.Chunk * Core.EmbeddingVector)) (k : nat) :
  let score := Core.score_of similarity query_vector in
  let ranked := take (Nat.min k (length candidates))
                     (Core.ranking similarity query_vector candidates) in
  Core.retrieve similarity query_vector candidates k
    = map (Core.to_retrieved similarity query_vector) ranked /\
  length ranked = Nat.min k (length candidates) /\
  (forall i c, (i, c) ∈ ranked -> candidates !! i = Some c) /\
  (forall i j a b, i < j -> ranked !! i = Some a -> ranked !! j = Some b ->
     (score b <= score a)%Q /\ ((score a == score b)%Q -> fst a < fst b)) /\
  (forall other,
     Permutation other (Core.indexed candidates) ->
     StronglySorted (Core.before similarity query_vector) other ->
     map (Core.to_retrieved similarity query_vector)
         (take (Nat.min k (length candidates)) other)
     = Core.retrieve similarity query_vector candidates k).
Proof.
  cbn zeta. unfold Core.retrieve, Core.ranking.
  destruct (RetrieverFacts.ranking_from_sorted similarity query_vector 0 candidates)
    as (Hperm & Hsorted & _).
  fold (Core.indexed candidates) in *.
  set (ranking := foldr (Core.insert_ranked similarity query_vector) []
                        (Core.indexed candidates)) in *.
  split_and!.
  - reflexivity.
  - rewrite length_take. apply Permutation_length in Hperm.
    rewrite Hperm. unfold Core.indexed.
    rewrite length_zip_with, length_seq. lia.
  - intros i c Hin. apply indexed_lookup. rewrite <- Hperm.
    by eapply subseteq_take.
  - intros i j a b Hij Ha Hb.
    pose proof (RetrieverFacts.sorted_lookup similarity query_vector _ i j a b
                  (RetrieverFacts.sorted_take similarity query_vector _ _ Hsorted)
                  Hij Ha Hb) as [Hlt|[Heq Hord]].
    + split; [by apply Qlt_le_weak|].
      intros Heq. rewrite Heq in Hlt. by apply Qlt_irrefl in Hlt.
    + split; [by rewrite Heq; apply Qle_refl | done].
  - intros other Hother Hsorted'. do 2 f_equal.
    apply (RetrieverFacts.sorted_perm_unique similarity query_vector); [done..|].
    by rewrite Hother, Hperm.
Qed.

(** The theorem at work on four candidates scoring 1/2, 1, 1/2 and 1:
    the arrangement 1, 3, 0, 2 respects the order, so its first three
    entries are what [retrieve] returns for [k = 3]. *)
Lemma retrieve_deterministic_and_stable_witness :
  let c i := ({| Core.chunk_id := i; Core.text := ""; Core.page_number := 1;
                 Core.ordinal_index := i; Core.total_chunks_in_page := 4 |}) in
  let similarity := fun (_ v : Core.EmbeddingVector) => List.hd 0%Q v in
  let candidates := [(c 0, [1 # 2]%Q); (c 1, [1]%Q); (c 2, [1 # 2]%Q); (c 3, [1]%Q)] in
  map (Core.to_retrieved similarity [])
      (take (Nat.min 3 (length candidates))
            [(1, (c 1, [1]%Q)); (3, (c 3, [1]%Q)); (0, (c 0, [1 # 2]%Q));
             (2, (c 2, [1 # 2]%Q))])
  = Core.retrieve similarity [] candidates 3.
Proof.
  cbn zeta.
  apply (retrieve_deterministic_and_stable (fun _ v => List.hd 0%Q v) []).
  - unfold Core.indexed. cbn [length seq zip zip_with].
    apply (Permutation_cons_app [_] [_; _]).
    apply (Permutation_cons_app [_; _] []).
    reflexivity.
  - repeat constructor; unfold Core.before, Core.score_of; cbn;
      first [ left; reflexivity | right; split; [reflexivity | lia] ].
Defined.

(** Ties keep the order of the candidates: with the first coordinate as
    score, the candidates scoring 1 come first, each group in ordinal
    order. *)
Example ranking_ties :
  let c i := ({| Core.chunk_id := i; Core.text := ""; Core.page_number := 1;
                 Core.ordinal_index := i; Core.total_chunks_in_page := 4 |}) in
  map fst (Core.ranking (fun _ v => List.hd 0%Q v) []
             [(c 0, [1 # 2]%Q); (c 1, [1]%Q); (c 2, [1 # 2]%Q); (c 3, [1]%Q)])
  = [1; 3; 0; 2].
Proof. reflexivity. Qed.

(** ** Sessions *)

Module SessionFacts.
Import Core.

Lemma new_session_aligned id cs es name pages s :
  new_session id cs es name pages = Ok s ->
  aligned s /\ session_chunks s = cs /\ session_embeddings s = es.
Proof.
  unfold new_session, aligned.
  destruct (Nat.eqb_spec (length cs) (length es)); [|done].
  by intros [= <-].
Qed.

Lemma new_session_mismatch id cs es name pages :
  length cs <> length es -> new_session id cs es name pages = Err ConstructionError.
Proof.
  unfold new_session. by destruct (Nat.eqb_spec (length cs) (length es)).
Qed.

Section Store.

Variable embedding : string -> option EmbeddingVector.

Lemma ingest_aligned token name page_texts chunk_size overlap s :
  ingest embedding token name page_texts chunk_size overlap = Ok s -> aligned s.
Proof.
  unfold ingest. destruct (chunk _ _ _) as [cs|]; [|done].
  destruct (embed _ _) as [es|]; [|done].
  intros Hs. by apply new_session_aligned in Hs as [? _].
Qed.

(** The embedder returns one vector per text, so ingestion never fails
    at construction. *)
Lemma ingest_constructs token name page_texts chunk_size overlap :
  ingest embedding token name page_texts chunk_size overlap <> Err ConstructionError.
Proof.
  unfold ingest, chunk, embed.
  destruct (chunk_size <=? overlap); [done|].
  destruct (chunk_pages _ _ _ _ _) as [|c cs]; [done|].
  destruct (mapM embedding (map text (c :: cs))) as [es|] eqn:Hes; [|done].
  apply length_mapM in Hes. rewrite length_map in Hes.
  unfold new_session. by destruct (Nat.eqb_spec (length (c :: cs)) (length es)).
Qed.

Lemma apply_aligned store op :
  map_Forall (fun _ s => aligned s) store ->
  map_Forall (fun _ s => aligned s) (apply embedding store op).
Proof.
  intros Hstore. destruct op as [token name page_texts chunk_size overlap|id]; cbn.
  - unfold create.
    destruct (ingest _ _ _ _ _ _) as [s|] eqn:Hs; cbn; [|done].
    apply map_Forall_insert_2; [|done]. by eapply ingest_aligned.
  - by apply map_Forall_delete.
Qed.

Lemma store_aligned ops store :
  map_Forall (fun _ s => aligned s) store ->
  map_Forall (fun _ s => aligned s) (fold_left (apply embedding) ops store).
Proof.
  revert store. induction ops as [|op ops IH]; intros store Hstore; [done|].
  cbn. by apply IH, apply_aligned.
Qed.

(** *** The payload of the stateless mode *)

(** The chunker numbers the chunks of a document by position. *)
Lemma chunk_pages_ids chunk_size overlap first_id page_number pages i c :
  chunk_pages chunk_size overlap first_id page_number pages !! i = Some c ->
  chunk_id c = first_id + i.
Proof.
  revert first_id page_number i.
  induction pages as [|page rest IH]; intros first_id page_number i; [done|].
  cbn [chunk_pages]. intros Hi.
  apply lookup_app_Some in Hi as [Hi|[Hlen Hi]].
  - unfold page_chunks in Hi. rewrite list_lookup_imap in Hi.
    destruct (chunk_page chunk_size overlap page !! i); [|done].
    cbn in Hi. by injection Hi as <-.
  - apply IH in Hi. lia.
Qed.

Lemma deserialize_serialize (cs : list Chunk) :
  (forall i c, cs !! i = Some c -> chunk_id c = i) ->
  imap (deserialize_chunk (map serialize_metadata cs)) (map text cs) = cs.
Proof.
  intros Hids. apply list_eq. intros i.
  rewrite list_lookup_imap, list_lookup_fmap.
  destruct (cs !! i) as [c|] eqn:Hc; [|done]. cbn.
  f_equal. specialize (Hids i c Hc).
  unfold deserialize_chunk, metadata_at. rewrite list_lookup_fmap, Hc.
  destruct c as [id t p o n]. cbn in *. rewrite !Nat2Z.id. by subst.
Qed.

(** Replaying the serialized payload of an ingested session rebuilds its
    chunks and vectors exactly. *)
Lemma load_stateless_serialize token name page_texts chunk_size overlap
    s message history :
  ingest embedding token name page_texts chunk_size overlap = Ok s ->
  exists s',
    load_stateless (StatelessAPIClient.build_request (serialize s) message history) = Ok s' /\
    session_chunks s' = session_chunks s /\
    session_embeddings s' = session_embeddings s.
Proof.
  intros Hs. pose proof (ingest_aligned _ _ _ _ _ _ Hs) as Haligned.
  assert (forall i c, session_chunks s !! i = Some c -> chunk_id c = i) as Hids.
  { revert Hs. unfold ingest, chunk.
    destruct (chunk_size <=? overlap); [done|].
    destruct (chunk_pages chunk_size overlap 0 1 page_texts) as [|c0 cs] eqn:Hcs; [done|].
    destruct (embed _ _) as [es|]; [|done].
    intros Hs i c Hi. apply new_session_aligned in Hs as (_ & Hchunks & _).
    rewrite Hchunks, <- Hcs in Hi. by apply chunk_pages_ids in Hi. }
  unfold load_stateless, StatelessAPIClient.build_request, serialize. cbn.
  rewrite deserialize_serialize by done.
  unfold new_session. unfold aligned in Haligned.
  destruct (Nat.eqb_spec (length (session_chunks s)) (length (session_embeddings s)));
    [|done].
  eexists. split; [reflexivity|]. done.
Qed.

End Store.

Section Retrieval.

Variable similarity : EmbeddingVector -> EmbeddingVector -> Q.

(** On the model of the core the two modes retrieve the same chunks with
    the same scores: the session the server keeps and the session it
    rebuilds from the replayed payload give the same result. *)
Lemma core_modes_agree embedding store token name page_texts chunk_size overlap
    message history query_vector k s :
  ingest embedding token name page_texts chunk_size overlap = Ok s ->
  load (fst (create embedding store token name page_texts chunk_size overlap)) token = Ok s /\
  exists s',
    load_stateless (StatelessAPIClient.build_request (serialize s) message history) = Ok s' /\
    retrieve_session similarity s' query_vector k = retrieve_session similarity s query_vector k.
Proof.
  intros Hs. split.
  - unfold create, load. rewrite Hs. cbn. by rewrite lookup_insert_eq.
  - destruct (load_stateless_serialize embedding _ _ _ _ _ _ message history Hs)
      as (s' & Hload & Hcs & Hes).
    exists s'. split; [done|].
    unfold retrieve_session, candidates. by rewrite Hcs, Hes.
Qed.

Lemma insert_ranked_length q x l :
  length (insert_ranked similarity q x l) = S (length l).
Proof.
  induction l as [|y l IH]; [done|]. cbn.
  destruct (Qlt_le_dec _ _); cbn; by rewrite ?IH.
Qed.

Lemma ranking_length q cands : length (ranking similarity q cands) = length cands.
Proof.
  unfold ranking, indexed.
  assert (forall l : list (nat * (Chunk * EmbeddingVector)),
            length (foldr (insert_ranked similarity q) [] l) = length l) as Hfold.
  { induction l as [|x l IH]; [done|]. cbn. by rewrite insert_ranked_length, IH. }
  rewrite Hfold, length_zip_with, length_seq. lia.
Qed.

(** Retrieval pairs the chunks and the vectors as they are, up to the
    shorter of the two sequences, and checks nothing. *)
Lemma retrieve_session_length s q k :
  length (retrieve_session similarity s q k) =
  Nat.min k (Nat.min (length (session_chunks s)) (length (session_embeddings s))).
Proof.
  unfold retrieve_session, retrieve, candidates.
  rewrite length_map, length_take, ranking_length, length_zip_with. lia.
Qed.

End Retrieval.

End SessionFacts.

(** C4: a session can only be constructed from as many chunks as
    embedding vectors: construction from sequences of different lengths
    fails, and a constructed session has equal lengths.  Hence every
    session the server-resident store holds after any history of
    operations, every session it loads, and every session the stateless
    mode deserializes has as many chunks as vectors, and a replayed
    payload with more or fewer chunks than vectors fails at
    construction.  Nothing checks
    again afterwards: [load] hands back what the store holds as it is,
    and retrieval pairs chunks and vectors up to the shorter sequence. *)
Theorem session_alignment
    (embedding : string -> option Core.EmbeddingVector)
    (similarity : Core.EmbeddingVector -> Core.EmbeddingVector -> Q) :
  (forall id cs es name pages,
     length cs <> length es ->
     Core.new_session id cs es name pages = Core.Err Core.ConstructionError) /\
  (forall id cs es name pages s,
     Core.new_session id cs es name pages = Core.Ok s -> Core.aligned s) /\
  (forall ops id s,
     Core.store_after embedding ops !! id = Some s -> Core.aligned s) /\
  (forall ops id s,
     Core.load (Core.store_after embedding ops) id = Core.Ok s -> Core.aligned s) /\
  (forall request s, Core.load_stateless request = Core.Ok s -> Core.aligned s) /\
  (forall request,
     length (req_chunks request) <> length (req_embeddings request) ->
     Core.load_stateless request = Core.Err Core.ConstructionError) /\
  (forall (store : gmap string Core.DocumentSession) id s,
     store !! id = Some s -> Core.load store id = Core.Ok s) /\
  (forall s q k,
     length (Core.retrieve_session similarity s q k) =
     Nat.min k (Nat.min (length (Core.session_chunks s))
                        (length (Core.session_embeddings s)))).
Proof.
  assert (forall ops id s,
            Core.store_after embedding ops !! id = Some s -> Core.aligned s) as Hstore.
  { intros ops id s Hs.
    eapply (SessionFacts.store_aligned embedding ops ∅); [|exact Hs].
    apply map_Forall_empty. }
  split_and!.
  - intros. by apply SessionFacts.new_session_mismatch.
  - intros id cs es name pages s Hs.
    by apply SessionFacts.new_session_aligned in Hs as [? _].
  - exact Hstore.
  - intros ops id s. unfold Core.load.
    destruct (Core.store_after embedding ops !! id) as [s'|] eqn:Hs; [|done].
    intros [= <-]. by eapply Hstore.
  - intros request s Hs. unfold Core.load_stateless in Hs.
    by apply SessionFacts.new_session_aligned in Hs as [? _].
  - intros request Hlen. apply SessionFacts.new_session_mismatch.
    by rewrite length_imap.
  - intros store id s Hs. unfold Core.load. by rewrite Hs.
  - apply SessionFacts.retrieve_session_length.
Qed.

Lemma session_alignment_witness :
  Core.new_session "doc"
    [{| Core.chunk_id := 0; Core.text := "a"; Core.page_number := 1;
        Core.ordinal_index := 0; Core.total_chunks_in_page := 1 |}]
    [] "a.pdf" 1
  = Core.Err Core.ConstructionError.
Proof.
  apply (session_alignment (fun _ => None) (fun _ _ => 0%Q)). cbn. lia.
Defined.

(** * Further properties of the sources *)

(** ** [trim] *)

Module TrimFacts.
Import Js.

Lemma trimEnd_idempotent s : trimEnd (trimEnd s) = trimEnd s.
Proof.
  induction s as [|c s IH]; [reflexivity|].
  cbn [trimEnd]. destruct (trimEnd s) as [|c' t] eqn:Ht.
  - destruct (is_whitespace c) eqn:Hc; [reflexivity|]. cbn. by rewrite Hc.
  - cbn [trimEnd] in IH |- *. by rewrite IH.
Qed.

Lemma trimEnd_append x y :
  trimEnd y <> "" -> trimEnd (x +:+ y) = x +:+ trimEnd y.
Proof.
  intros Hy. induction x as [|c x IH]; [reflexivity|].
  rewrite !JsFacts.append_cons. cbn [trimEnd]. rewrite IH.
  destruct (x +:+ trimEnd y) as [|c' t] eqn:Hx; [|reflexivity].
  destruct x; [done|discriminate].
Qed.

Lemma trimEnd_of_trimmed p : trim p = p -> trimEnd p = p.
Proof.
  unfold trim. intros Hp. rewrite <- Hp at 1. rewrite trimEnd_idempotent. exact Hp.
Qed.

(** A [data:] line with a trimmed payload is itself trimmed. *)
Lemma trim_data_line p :
  trim p = p -> p <> "" -> trim ("data: " +:+ p) = "data: " +:+ p.
Proof.
  intros Hp Hne. unfold trim.
  change (trimStart ("data: " +:+ p)) with ("data: " +:+ p).
  rewrite trimEnd_append; rewrite trimEnd_of_trimmed; done.
Qed.

(** Trimming keeps a prefix that starts and ends without white space. *)
Lemma trimEnd_cons c s :
  is_whitespace c = false -> trimEnd (String c s) = String c (trimEnd s).
Proof. intros Hc. cbn [trimEnd]. rewrite Hc. by destruct (trimEnd s). Qed.

End TrimFacts.

(** ** More on the two stream readers *)

Module ReaderFacts.
Import Callbacks.

Section Readers.

Variable JSON_parse : string -> option StreamEvent.

(** *** Reads that hold whole events, through the stateless client *)

Section Aligned.

Variable payload : StreamEvent -> string.

Lemma group_lines group rest :
  Forall (Wire.well_encoded JSON_parse payload) group ->
  Js.split_nl (read_of payload group +:+ rest) =
  flat_map (fun e => ["data: " +:+ payload e; ""]) group ++ Js.split_nl rest.
Proof.
  unfold read_of. induction 1 as [|e group (_ & Hline & _) _ IH]; [reflexivity|].
  cbn [map Js.concat foldr flat_map app].
  fold (Js.concat (map (fun e => Wire.sse (payload e)) group)).
  rewrite JsFacts.append_assoc, sse_lines by exact Hline. by rewrite IH.
Qed.

Lemma stateless_forLines_group group rest st :
  Forall (Wire.well_encoded JSON_parse payload) group ->
  aborted st = false ->
  StatelessAPIClient.forLines JSON_parse patient
    (flat_map (fun e => ["data: " +:+ payload e; ""]) group ++ rest) st =
  StatelessAPIClient.forLines JSON_parse patient rest
    {| delivered := delivered st ++ map onMessage group; aborted := false |}.
Proof.
  intros Hall. revert st.
  induction Hall as [|e group (Hparse & _ & Htrim & Hmarker & Hempty) _ IH]; intros st Ha.
  { cbn. rewrite app_nil_r. destruct st; cbn in *. by subst. }
  cbn [flat_map app StatelessAPIClient.forLines].
  rewrite TrimFacts.trim_data_line by done.
  rewrite JsFacts.startsWith_append.
  change 6 with (String.length "data: "). rewrite JsFacts.slice_append.
  destruct (String.eqb_spec (payload e) "[DONE]") as [Hm|_]; [done|].
  unfold Js.truthy.
  destruct (String.eqb_spec (payload e) "") as [Hm|_]; [done|].
  cbn [negb]. rewrite Hparse.
  change (Js.startsWith "data: " (Js.trim "")) with false. cbn iota.
  rewrite IH by (cbn; by rewrite Ha).
  cbn. by rewrite <- app_assoc.
Qed.

Lemma stateless_forLines_done st :
  StatelessAPIClient.forLines JSON_parse patient (Js.split_nl (Wire.sse "[DONE]")) st =
  (deliver patient onComplete st, true).
Proof. by vm_compute. Qed.

Lemma stateless_reads_aligned groups final st :
  Forall (Forall (Wire.well_encoded JSON_parse payload)) groups ->
  Forall (Wire.well_encoded JSON_parse payload) final ->
  aborted st = false ->
  delivered
    (StatelessAPIClient.readStream JSON_parse patient
       (map (read_of payload) groups ++ [read_of payload final +:+ Wire.sse "[DONE]"])
       None st) =
  delivered st ++ map onMessage (mjoin groups ++ final) ++ [onComplete].
Proof.
  intros Hgroups Hfinal. revert st.
  induction Hgroups as [|group groups Hgroup _ IH]; intros st Ha.
  - cbn [map app StatelessAPIClient.readStream].
    rewrite await_patient, Ha by done.
    rewrite group_lines by done.
    rewrite stateless_forLines_group by done.
    rewrite stateless_forLines_done.
    cbn [deliver delivered mjoin app]. by rewrite <- !app_assoc.
  - cbn [map app StatelessAPIClient.readStream].
    rewrite await_patient, Ha by done.
    rewrite <- (JsFacts.append_empty_r (read_of payload group)).
    rewrite group_lines by done.
    rewrite stateless_forLines_group by done.
    change (Js.split_nl "") with [""].
    change (StatelessAPIClient.forLines JSON_parse patient [""] ?s) with (s, false).
    cbn iota. rewrite IH by done. cbn [delivered].
    change (mjoin (group :: groups)) with (group ++ mjoin groups).
    rewrite !map_app, <- !app_assoc. reflexivity.
Qed.

End Aligned.

(** *** Callbacks come in one shape *)

Lemma deliver_message caller e st :
  only_messages (delivered st) -> only_messages (delivered (deliver caller (onMessage e) st)).
Proof.
  intros [events Hd]. exists (events ++ [e]). cbn. by rewrite Hd, map_app.
Qed.

Lemma deliver_closing caller cb st :
  only_messages (delivered st) ->
  cb = onComplete \/ (exists e, cb = onError e) ->
  settled_at_most_once (delivered (deliver caller cb st)).
Proof.
  intros [events Hd] Hcb. exists events, [cb]. cbn. rewrite Hd. split; [done|].
  destruct Hcb as [->|[e ->]]; eauto.
Qed.

Lemma only_messages_settled d : only_messages d -> settled_at_most_once d.
Proof. intros [events ->]. exists events, []. rewrite app_nil_r. auto. Qed.

Lemma catch_shape caller e st :
  only_messages (delivered st) -> settled_at_most_once (delivered (catch caller e st)).
Proof.
  intros Hd. unfold catch. destruct (aborted st).
  - by apply only_messages_settled.
  - apply deliver_closing; eauto.
Qed.

Lemma stateless_forLines_shape caller lines st :
  only_messages (delivered st) ->
  if snd (StatelessAPIClient.forLines JSON_parse caller lines st)
  then settled_at_most_once
         (delivered (fst (StatelessAPIClient.forLines JSON_parse caller lines st)))
  else only_messages (delivered (fst (StatelessAPIClient.forLines JSON_parse caller lines st))).
Proof.
  revert st. induction lines as [|line rest IH]; intros st Hd; [done|].
  cbn [StatelessAPIClient.forLines].
  destruct (Js.startsWith _ _); [|by apply IH].
  destruct (String.eqb _ _); [cbn [fst snd]; apply deliver_closing; eauto|].
  destruct (Js.truthy _); [|by apply IH].
  destruct (JSON_parse _); [apply IH; by apply deliver_message | by apply IH].
Qed.

Lemma api_forLines_shape caller lines st :
  only_messages (delivered st) ->
  if snd (ApiClient.forLines JSON_parse caller lines st)
  then settled_at_most_once (delivered (fst (ApiClient.forLines JSON_parse caller lines st)))
  else only_messages (delivered (fst (ApiClient.forLines JSON_parse caller lines st))).
Proof.
  revert st. induction lines as [|line rest IH]; intros st Hd; [done|].
  cbn [ApiClient.forLines].
  destruct (Js.startsWith _ _); [|by apply IH].
  destruct (String.eqb _ _); [cbn [fst snd]; apply deliver_closing; eauto|].
  destruct (Js.truthy _); [|by apply IH].
  destruct (JSON_parse _); [apply IH; by apply deliver_message | by apply IH].
Qed.

Lemma stateless_readStream_shape caller chunks failure st :
  only_messages (delivered st) ->
  settled_at_most_once
    (delivered (StatelessAPIClient.readStream JSON_parse caller chunks failure st)).
Proof.
  revert st. induction chunks as [|chunk more IH]; intros st Hd;
    cbn [StatelessAPIClient.readStream].
  - destruct (aborted (await caller st)); [by apply only_messages_settled|].
    destruct failure; apply deliver_closing; eauto.
  - destruct (aborted (await caller st)); [by apply only_messages_settled|].
    pose proof (stateless_forLines_shape caller (Js.split_nl chunk) (await caller st) Hd) as Hl.
    destruct (StatelessAPIClient.forLines _ _ _ _) as [st' returned].
    cbn [fst snd] in Hl. destruct returned; [done|]. by apply IH.
Qed.

Lemma api_readStream_shape caller chunks failure buffer st :
  only_messages (delivered st) ->
  settled_at_most_once
    (delivered (ApiClient.readStream JSON_parse caller chunks failure buffer st)).
Proof.
  revert buffer st. induction chunks as [|chunk more IH]; intros buffer st Hd;
    cbn [ApiClient.readStream].
  - destruct (aborted (await caller st)); [by apply only_messages_settled|].
    destruct failure; apply deliver_closing; eauto.
  - destruct (aborted (await caller st)); [by apply only_messages_settled|].
    unfold Js.pop.
    pose proof (api_forLines_shape caller
                  (removelast (Js.split_nl (buffer +:+ chunk))) (await caller st) Hd) as Hl.
    destruct (ApiClient.forLines _ _ _ _) as [st' returned].
    cbn [fst snd] in Hl. destruct returned; [done|]. by apply IH.
Qed.

Lemma start_only_messages caller : only_messages (delivered (await caller start)).
Proof. by exists []. Qed.

End Readers.

End ReaderFacts.

Lemma concat_app (a b : list string) : Js.concat (a ++ b) = Js.concat a +:+ Js.concat b.
Proof.
  induction a as [|x a IH]; [reflexivity|].
  cbn [app Js.concat foldr]. fold (Js.concat (a ++ b)) (Js.concat a).
  by rewrite IH, JsFacts.append_assoc.
Qed.

Lemma concat_reads payload (groups : list (list StreamEvent)) :
  Js.concat (map (Callbacks.read_of payload) groups) =
  Callbacks.read_of payload (mjoin groups).
Proof.
  induction groups as [|g groups IH]; [reflexivity|].
  cbn [map].
  change (Js.concat (Callbacks.read_of payload g :: map (Callbacks.read_of payload) groups))
    with (Callbacks.read_of payload g +:+ Js.concat (map (Callbacks.read_of payload) groups)).
  rewrite IH. change (mjoin (g :: groups)) with (g ++ mjoin groups).
  unfold Callbacks.read_of. by rewrite map_app, concat_app.
Qed.

Lemma api_afterFetch_ok JSON_parse status chunks failure :
  ApiClient.afterFetch JSON_parse patient
    (FetchResponse true status (Some {| body_chunks := chunks; body_failure := failure |})) =
  ApiClient.readStream JSON_parse patient chunks failure "" start.
Proof. reflexivity. Qed.

Lemma stateless_afterFetch_ok JSON_parse status chunks failure :
  StatelessAPIClient.afterFetch JSON_parse patient
    (FetchResponse true status (Some {| body_chunks := chunks; body_failure := failure |})) =
  StatelessAPIClient.readStream JSON_parse patient chunks failure start.
Proof. reflexivity. Qed.

(** X1: the server-resident client is blind to the way the network
    cuts a response into reads: two successful responses whose reads
    spell the same text, and which end the same way, make it issue the
    same request and the same callbacks to a caller that does not abort. *)
Theorem api_streamChat_independent_of_cuts
    (JSON_parse : string -> option StreamEvent) (request : ChatRequest) (apiKey : string)
    (status : N) (chunks1 chunks2 : list string) (failure : option Error) :
  Js.concat chunks1 = Js.concat chunks2 ->
  ApiClient.streamChat JSON_parse patient request apiKey
    (FetchResponse true status
       (Some {| body_chunks := chunks1; body_failure := failure |})) =
  ApiClient.streamChat JSON_parse patient request apiKey
    (FetchResponse true status
       (Some {| body_chunks := chunks2; body_failure := failure |})).
Proof.
  intros Heq. unfold ApiClient.streamChat. rewrite !api_afterFetch_ok.
  by rewrite (api_readStream_chunking JSON_parse chunks1 chunks2 failure Heq).
Qed.

Lemma api_streamChat_independent_of_cuts_witness :
  ApiClient.streamChat Wire.parse_known patient
    {| cr_file_id := "f1"; cr_message := "why?"; cr_history := [] |} "sk-key"
    (FetchResponse true 200
       (Some {| body_chunks := ["data: " +:+ Wire.json_sources_head;
                                Wire.json_sources_tail +:+ Wire.nl +:+ Wire.nl
                                  +:+ Wire.sse "[DONE]"];
                body_failure := None |})) =
  ApiClient.streamChat Wire.parse_known patient
    {| cr_file_id := "f1"; cr_message := "why?"; cr_history := [] |} "sk-key"
    (FetchResponse true 200
       (Some {| body_chunks := [Wire.sse Wire.json_sources +:+ Wire.sse "[DONE]"];
                body_failure := None |})).
Proof.
  apply (api_streamChat_independent_of_cuts Wire.parse_known). by vm_compute.
Defined.

(** X2: when the server sends one [data:] line per event and then the
    end marker, the server-resident client calls [onMessage] once per
    event, in the order sent, then [onComplete], and nothing else,
    however the network cuts the text into reads. *)
Theorem api_streamChat_delivers_every_event
    (JSON_parse : string -> option StreamEvent) (payload : StreamEvent -> string)
    (request : ChatRequest) (apiKey : string) (status : N)
    (events : list StreamEvent) (chunks : list string) :
  Forall (Wire.well_encoded JSON_parse payload) events ->
  Js.concat chunks = Wire.body_text payload events ->
  ApiClient.streamChat JSON_parse patient request apiKey
    (FetchResponse true status (Some {| body_chunks := chunks; body_failure := None |})) =
  ([POST_chat_stream request apiKey], map onMessage events ++ [onComplete]).
Proof.
  intros Hall Hbody. unfold ApiClient.streamChat. rewrite api_afterFetch_ok.
  by rewrite (api_delivers_in_order JSON_parse payload events chunks Hall Hbody).
Qed.

Lemma api_streamChat_delivers_every_event_witness :
  ApiClient.streamChat Wire.parse_known patient
    {| cr_file_id := "f1"; cr_message := "why?"; cr_history := [] |} "sk-key"
    (FetchResponse true 200
       (Some {| body_chunks := ["data: " +:+ Wire.json_content "A" +:+ Wire.nl;
                                Wire.nl +:+ "data: " +:+ Wire.json_sources_head;
                                Wire.json_sources_tail +:+ Wire.nl +:+ Wire.nl
                                  +:+ Wire.sse "[DONE]"];
                body_failure := None |})) =
  ([POST_chat_stream {| cr_file_id := "f1"; cr_message := "why?"; cr_history := [] |} "sk-key"],
   map onMessage [Wire.content_event "A"; Wire.sources_event [Wire.one_source]]
     ++ [onComplete]).
Proof.
  apply (api_streamChat_delivers_every_event Wire.parse_known Wire.encode_known).
  - repeat constructor; by vm_compute.
  - by vm_compute.
Defined.

(** X3: when every read holds whole events (the end marker coming in
    the last read), the stateless client too calls [onMessage] once per
    event, in order, then [onComplete]; on such reads the two clients
    make the same callbacks. *)
Theorem stateless_streamChat_on_whole_events
    (JSON_parse : string -> option StreamEvent) (payload : StreamEvent -> string)
    (this : StatelessAPIClient.t) (request : ChatRequest) (apiKey : string) (status : N)
    (pdfData : ProcessedPDF) (groups : list (list StreamEvent)) (final : list StreamEvent) :
  StatelessAPIClient.storedPDFData this !! cr_file_id request = Some pdfData ->
  Forall (Forall (Wire.well_encoded JSON_parse payload)) groups ->
  Forall (Wire.well_encoded JSON_parse payload) final ->
  let response :=
    FetchResponse true status
      (Some {| body_chunks :=
                 map (Callbacks.read_of payload) groups
                   ++ [Callbacks.read_of payload final +:+ Wire.sse "[DONE]"];
               body_failure := None |}) in
  snd (StatelessAPIClientWrapper.streamChat JSON_parse patient this request apiKey response)
    = map onMessage (mjoin groups ++ final) ++ [onComplete] /\
  snd (ApiClient.streamChat JSON_parse patient request apiKey response)
    = snd (StatelessAPIClientWrapper.streamChat JSON_parse patient this request apiKey response).
Proof.
  intros Hstored Hgroups Hfinal. cbn zeta.
  assert (snd (StatelessAPIClientWrapper.streamChat JSON_parse patient this request apiKey
                 (FetchResponse true status
                    (Some {| body_chunks :=
                               map (Callbacks.read_of payload) groups
                                 ++ [Callbacks.read_of payload final +:+ Wire.sse "[DONE]"];
                             body_failure := None |})))
          = map onMessage (mjoin groups ++ final) ++ [onComplete]) as Hstateless.
  { unfold StatelessAPIClientWrapper.streamChat, StatelessAPIClient.streamChat.
    rewrite Hstored, stateless_afterFetch_ok. cbn [snd].
    by rewrite (ReaderFacts.stateless_reads_aligned JSON_parse payload groups final start). }
  split; [exact Hstateless|]. rewrite Hstateless.
  assert (Forall (Wire.well_encoded JSON_parse payload) (mjoin groups ++ final)) as Hall.
  { apply Forall_app. split; [|done].
    clear -Hgroups. induction Hgroups as [|g groups Hg _ IH]; [constructor|].
    change (mjoin (g :: groups)) with (g ++ mjoin groups). by apply Forall_app. }
  unfold ApiClient.streamChat. rewrite api_afterFetch_ok. cbn [snd].
  rewrite (api_delivers_in_order JSON_parse payload (mjoin groups ++ final) _ Hall);
    [reflexivity|].
  rewrite concat_app, concat_reads. unfold Wire.body_text, Callbacks.read_of.
  cbn [Js.concat foldr]. rewrite JsFacts.append_empty_r, map_app, concat_app.
  by rewrite JsFacts.append_assoc.
Qed.

Lemma stateless_streamChat_on_whole_events_witness :
  let request := {| cr_file_id := "f1"; cr_message := "why?"; cr_history := [] |} in
  let response :=
    FetchResponse true 200
      (Some {| body_chunks :=
                 map (Callbacks.read_of Wire.encode_known)
                     [[Wire.content_event "A"]; [Wire.content_event "B"; Wire.content_event "C"]]
                   ++ [Callbacks.read_of Wire.encode_known [Wire.sources_event [Wire.one_source]]
                         +:+ Wire.sse "[DONE]"];
               body_failure := None |}) in
  snd (StatelessAPIClientWrapper.streamChat Wire.parse_known patient Wire.a_client request
         "sk-key" response)
    = map onMessage
        (mjoin [[Wire.content_event "A"]; [Wire.content_event "B"; Wire.content_event "C"]]
           ++ [Wire.sources_event [Wire.one_source]])
        ++ [onComplete] /\
  snd (ApiClient.streamChat Wire.parse_known patient request "sk-key" response)
    = snd (StatelessAPIClientWrapper.streamChat Wire.parse_known patient Wire.a_client request
             "sk-key" response).
Proof.
  apply (stateless_streamChat_on_whole_events Wire.parse_known Wire.encode_known
           Wire.a_client {| cr_file_id := "f1"; cr_message := "why?"; cr_history := [] |}
           "sk-key" 200 Wire.a_payload).
  - reflexivity.
  - repeat constructor; by vm_compute.
  - repeat constructor; by vm_compute.
Defined.

(** X4: whatever the server sends, however the fetch settles and
    whenever the caller aborts, each client makes its callbacks in one
    shape: calls of [onMessage], then at most one call of [onComplete] or
    [onError], then nothing.  A stream is never completed twice, never
    both completed and failed, and no event follows its end.  (The
    callbacks themselves return normally, as those of [ChatInterface]
    do.) *)
Theorem callbacks_settle_at_most_once
    (JSON_parse : string -> option StreamEvent) (caller : Caller)
    (this : StatelessAPIClient.t) (request : ChatRequest) (apiKey : string)
    (outcome : FetchOutcome) :
  Callbacks.settled_at_most_once
    (snd (ApiClient.streamChat JSON_parse caller request apiKey outcome)) /\
  Callbacks.settled_at_most_once
    (snd (StatelessAPIClientWrapper.streamChat JSON_parse caller this request apiKey outcome)).
Proof.
  pose proof (ReaderFacts.start_only_messages caller) as Hstart.
  split.
  - unfold ApiClient.streamChat, ApiClient.afterFetch. cbn [snd].
    destruct (aborted (await caller start)); [by apply ReaderFacts.only_messages_settled|].
    destruct outcome as [e|ok status body]; [by apply ReaderFacts.catch_shape|].
    destruct (negb ok); [by apply ReaderFacts.catch_shape|].
    destruct body; [by apply ReaderFacts.api_readStream_shape|by apply ReaderFacts.catch_shape].
  - unfold StatelessAPIClientWrapper.streamChat, StatelessAPIClient.streamChat,
      StatelessAPIClient.afterFetch.
    destruct (StatelessAPIClient.storedPDFData this !! cr_file_id request); cbn [snd].
    + destruct (aborted (await caller start)); [by apply ReaderFacts.only_messages_settled|].
      destruct outcome as [e|ok status body]; [by apply ReaderFacts.catch_shape|].
      destruct (negb ok); [by apply ReaderFacts.catch_shape|].
      destruct body;
        [by apply ReaderFacts.stateless_readStream_shape|by apply ReaderFacts.catch_shape].
    + exists [], [onError StatelessAPIClient.not_found]. eauto.
Qed.

(** X5: an abort while the request is pending silences both clients.
    The request has been issued, and whatever the fetch then settles to (a
    response with a body full of events, a refusal, a network failure),
    neither client makes a single callback: no event, no error and no
    completion. *)
Theorem abort_while_pending_silences_both_clients
    (JSON_parse : string -> option StreamEvent) (caller : Caller)
    (this : StatelessAPIClient.t) (request : ChatRequest) (apiKey : string)
    (pdfData : ProcessedPDF) (outcome : FetchOutcome) :
  abort_while_pending caller [] = true ->
  StatelessAPIClient.storedPDFData this !! cr_file_id request = Some pdfData ->
  snd (ApiClient.streamChat JSON_parse caller request apiKey outcome) = [] /\
  snd (StatelessAPIClientWrapper.streamChat JSON_parse caller this request apiKey outcome) = [] /\
  length (fst (ApiClient.streamChat JSON_parse caller request apiKey outcome)) = 1 /\
  length (fst (StatelessAPIClientWrapper.streamChat JSON_parse caller this request apiKey
                 outcome)) = 1.
Proof.
  intros Habort Hstored.
  assert (aborted (await caller start) = true) as Ha by (cbn; exact Habort).
  unfold StatelessAPIClientWrapper.streamChat, StatelessAPIClient.streamChat,
    StatelessAPIClient.afterFetch, ApiClient.streamChat, ApiClient.afterFetch.
  rewrite Hstored, Ha. cbn. done.
Qed.

Lemma abort_while_pending_silences_both_clients_witness :
  let caller := {| abort_in_callback := fun _ => false; abort_while_pending := fun _ => true |} in
  let request := {| cr_file_id := "f1"; cr_message := "why?"; cr_history := [] |} in
  snd (ApiClient.streamChat Wire.parse_known caller request "sk-key" Wire.one_read_response)
    = [] /\
  snd (StatelessAPIClientWrapper.streamChat Wire.parse_known caller Wire.a_client request
         "sk-key" Wire.one_read_response) = [] /\
  length (fst (ApiClient.streamChat Wire.parse_known caller request "sk-key"
                 Wire.one_read_response)) = 1 /\
  length (fst (StatelessAPIClientWrapper.streamChat Wire.parse_known caller Wire.a_client
                 request "sk-key" Wire.one_read_response)) = 1.
Proof.
  apply (abort_while_pending_silences_both_clients Wire.parse_known
           {| abort_in_callback := fun _ => false; abort_while_pending := fun _ => true |}
           Wire.a_client {| cr_file_id := "f1"; cr_message := "why?"; cr_history := [] |}
           "sk-key" Wire.a_payload Wire.one_read_response); reflexivity.
Defined.

(** ** The stateless client and its copy in [sessionStorage] *)

Module StorageFacts.
Import StatelessStorage.

Lemma foldl_insert_entries (data : list (string * ProcessedPDF)) (acc : gmap string ProcessedPDF) :
  NoDup data.*1 ->
  foldl (fun m entry => <[fst entry := snd entry]> m) acc data
    = (list_to_map data : gmap string ProcessedPDF) ∪ acc.
Proof.
  revert acc. induction data as [|[k v] data IH]; intros acc Hnd.
  - cbn. by rewrite (left_id_L ∅ (∪)).
  - cbn in Hnd. apply NoDup_cons in Hnd as [Hk Hnd].
    cbn [foldl list_to_map foldr fst snd]. rewrite IH by done.
    rewrite <- insert_union_l. apply eq_sym, insert_union_r.
    by apply not_elem_of_list_to_map_1.
Qed.

(** [new Map(Array.from(m.entries()))] is [m]. *)
Lemma Map_of_entries_to_list (m : gmap string ProcessedPDF) :
  Map_of_entries (map_to_list m) = m.
Proof.
  unfold Map_of_entries. rewrite foldl_insert_entries by apply NoDup_fst_map_to_list.
  by rewrite list_to_map_to_list, (right_id_L ∅ (∪)).
Qed.

End StorageFacts.

(** X6: an uploaded payload survives a page reload exactly when the
    write to [sessionStorage] succeeds.  When the POST resolves the client
    stores the payload under its [file_id] and then writes its map to
    [sessionStorage].  If the value fits, the method resolves with the
    payload and, provided [JSON.parse] reads back what [JSON.stringify]
    wrote, the client that the constructor builds from that storage after
    a reload holds exactly the same map: the new payload under its
    identifier and every other payload as before.  If [setItem] throws,
    the method rejects with that exception although the POST resolved;
    the payload is in the map of this client, the storage is left as it
    was, and a reload restores what it held before. *)
Theorem uploaded_payload_survives_a_reload
    (JSON_stringify : list (string * ProcessedPDF) -> string)
    (JSON_parse : string -> option (list (string * ProcessedPDF)))
    (quota : gmap string string -> string -> string -> option Error)
    (this : StatelessAPIClient.t) (sessionStorage : gmap string string)
    (file : File) (apiKey : string) (data : ProcessedPDF) :
  let r := StatelessStorage.uploadAndProcessPDF JSON_stringify quota this sessionStorage
             file apiKey (Resolved data) in
  let uploaded := fst (fst r) in
  let reloaded := StatelessStorage.construct JSON_parse (snd (fst r)) in
  let entries := map_to_list (StatelessAPIClient.storedPDFData uploaded) in
  JSON_parse (JSON_stringify entries) = Some entries ->
  JSON_stringify entries <> "" ->
  issued (snd r) = [POST_stateless_upload_process file apiKey] /\
  StatelessAPIClient.getPDFData uploaded (file_id data) = Some data /\
  match quota sessionStorage "pdf_data" (JSON_stringify entries) with
  | None =>
      settled (snd r) = Resolved data /\
      reloaded = uploaded /\
      StatelessAPIClient.getPDFData reloaded (file_id data) = Some data /\
      (forall fileId, fileId <> file_id data ->
         StatelessAPIClient.getPDFData reloaded fileId
           = StatelessAPIClient.getPDFData this fileId)
  | Some e =>
      settled (snd r) = Rejected e /\
      snd (fst r) = sessionStorage /\
      reloaded = StatelessStorage.construct JSON_parse sessionStorage
  end.
Proof.
  cbn zeta.
  unfold StatelessStorage.uploadAndProcessPDF, StatelessStorage.saveToSession,
    StatelessStorage.setItem.
  cbn [StatelessAPIClient.uploadAndProcessPDF].
  set (stored := <[file_id data := data]> (StatelessAPIClient.storedPDFData this)).
  cbn [StatelessAPIClient.storedPDFData].
  destruct (quota sessionStorage "pdf_data" (JSON_stringify (map_to_list stored)))
    as [e|] eqn:Hquota;
    cbn [fst snd StatelessAPIClient.storedPDFData settled issued]; rewrite ?Hquota;
    intros Hcodec Hne.
  - unfold StatelessAPIClient.getPDFData. cbn [StatelessAPIClient.storedPDFData].
    unfold stored. rewrite lookup_insert_eq. done.
  - assert (StatelessStorage.construct JSON_parse
              (<["pdf_data" := JSON_stringify (map_to_list stored)]> sessionStorage)
            = {| StatelessAPIClient.storedPDFData := stored |}) as ->.
    { unfold StatelessStorage.construct, StatelessStorage.restoreFromSession.
      rewrite lookup_insert_eq. unfold Js.truthy.
      destruct (String.eqb_spec (JSON_stringify (map_to_list stored)) "") as [He|_]; [done|].
      cbn [negb]. rewrite Hcodec. by rewrite StorageFacts.Map_of_entries_to_list. }
    unfold StatelessAPIClient.getPDFData. cbn [StatelessAPIClient.storedPDFData].
    unfold stored. rewrite lookup_insert_eq. split_and!; try done.
    intros fileId Hid. by rewrite lookup_insert_ne.
Qed.

Lemma uploaded_payload_survives_a_reload_witness :
  let file := {| file_name := "paper.pdf"; file_type := "application/pdf"; file_size := 10 |} in
  let empty := {| StatelessAPIClient.storedPDFData := ∅ |} in
  let parse := fun _ : string => Some [("f1"%string, Wire.a_payload)] in
  let full := {| error_message := "QuotaExceededError" |} in
  let written :=
    StatelessStorage.uploadAndProcessPDF (fun _ => "[[...]]") (fun _ _ _ => None)
      empty ∅ file "sk-key" (Resolved Wire.a_payload) in
  let refused :=
    StatelessStorage.uploadAndProcessPDF (fun _ => "[[...]]") (fun _ _ _ => Some full)
      empty ∅ file "sk-key" (Resolved Wire.a_payload) in
  (settled (snd written) = Resolved Wire.a_payload /\
   StatelessStorage.construct parse (snd (fst written)) = fst (fst written) /\
   StatelessAPIClient.getPDFData (StatelessStorage.construct parse (snd (fst written))) "f1"
     = Some Wire.a_payload) /\
  (settled (snd refused) = Rejected full /\
   StatelessAPIClient.getPDFData (fst (fst refused)) "f1" = Some Wire.a_payload /\
   StatelessAPIClient.getPDFData (StatelessStorage.construct parse (snd (fst refused))) "f1"
     = None).
Proof.
  cbn zeta. split.
  - pose proof (uploaded_payload_survives_a_reload (fun _ => "[[...]]")
                  (fun _ => Some [("f1"%string, Wire.a_payload)]) (fun _ _ _ => None)
                  {| StatelessAPIClient.storedPDFData := ∅ |} ∅
                  {| file_name := "paper.pdf"; file_type := "application/pdf";
                     file_size := 10 |}
                  "sk-key" Wire.a_payload) as H.
    cbn zeta in H. destruct H as (_ & _ & Hs & Hr & Hg & _).
    + vm_compute. reflexivity.
    + discriminate.
    + split; [exact Hs|]. split; [exact Hr|exact Hg].
  - pose proof (uploaded_payload_survives_a_reload (fun _ => "[[...]]")
                  (fun _ => Some [("f1"%string, Wire.a_payload)])
                  (fun _ _ _ => Some {| error_message := "QuotaExceededError" |})
                  {| StatelessAPIClient.storedPDFData := ∅ |} ∅
                  {| file_name := "paper.pdf"; file_type := "application/pdf";
                     file_size := 10 |}
                  "sk-key" Wire.a_payload) as H.
    cbn zeta in H. destruct H as (_ & Hm & Hs & _ & Hr).
    + vm_compute. reflexivity.
    + discriminate.
    + split; [exact Hs|]. split; [exact Hm|]. rewrite Hr. reflexivity.
Defined.

(** X7: cleared data stays cleared, and a reload never fails.  After
    [clearStoredData] neither the client nor the client that the
    constructor builds from the storage after a reload holds a payload:
    every chat call, for any identifier, fails with the data-missing error
    and issues no request.  The same holds for a client constructed over a
    storage whose copy is absent, empty or unreadable. *)
Theorem cleared_payload_stays_cleared
    (JSON_parse : string -> option (list (string * ProcessedPDF)))
    (parse_event : string -> option StreamEvent) (caller : Caller)
    (this : StatelessAPIClient.t) (sessionStorage : gmap string string)
    (request : ChatRequest) (apiKey : string)
    (post : HttpRequest -> Promise ChatResponse) (outcome : FetchOutcome) :
  let cleared := StatelessStorage.clearStoredData this sessionStorage in
  let fails client :=
    StatelessAPIClientWrapper.sendMessage client request apiKey post
      = {| issued := []; settled := Rejected StatelessAPIClient.not_found |} /\
    StatelessAPIClientWrapper.streamChat parse_event caller client request apiKey outcome
      = ([], [onError StatelessAPIClient.not_found]) in
  fails (fst cleared) /\
  fails (StatelessStorage.construct JSON_parse (snd cleared)) /\
  (match sessionStorage !! "pdf_data" with
   | Some stored => stored = "" \/ JSON_parse stored = None
   | None => True
   end -> fails (StatelessStorage.construct JSON_parse sessionStorage)).
Proof.
  cbn zeta.
  assert (forall client, StatelessAPIClient.storedPDFData client = ∅ ->
            StatelessAPIClientWrapper.sendMessage client request apiKey post
              = {| issued := []; settled := Rejected StatelessAPIClient.not_found |} /\
            StatelessAPIClientWrapper.streamChat parse_event caller client request apiKey outcome
              = ([], [onError StatelessAPIClient.not_found])) as Hfails.
  { intros client Hempty.
    unfold StatelessAPIClientWrapper.sendMessage, StatelessAPIClientWrapper.streamChat,
      StatelessAPIClient.sendMessage, StatelessAPIClient.streamChat.
    by rewrite Hempty, lookup_empty. }
  split; [|split].
  - by apply Hfails.
  - apply Hfails. unfold StatelessStorage.construct, StatelessStorage.restoreFromSession.
    unfold StatelessStorage.clearStoredData. cbn [snd]. by rewrite lookup_delete_eq.
  - intros Hcopy. apply Hfails.
    unfold StatelessStorage.construct, StatelessStorage.restoreFromSession.
    destruct (sessionStorage !! "pdf_data") as [stored|]; [|done].
    destruct Hcopy as [->|Hbad]; [done|].
    rewrite Hbad. by destruct (Js.truthy stored).
Qed.

(** ** The API key: provider, dialog and page *)

Module ApiKeyFacts.



Lemma startsWith_sk s :
  Js.startsWith "sk-" s = true -> exists rest, s = "sk-" +:+ rest.
Proof.
  unfold Js.startsWith. intros H.
  destruct s as [|a s]; [discriminate|]. cbn [String.prefix] in H.
  destruct (ascii_dec "s" a) as [<-|]; [|discriminate].
  destruct s as [|b s]; [discriminate|]. cbn [String.prefix] in H.
  destruct (ascii_dec "k" b) as [<-|]; [|discriminate].
  destruct s as [|c s]; [discriminate|]. cbn [String.prefix] in H.
  destruct (ascii_dec "-" c) as [<-|]; [|discriminate].
  by exists s.
Qed.

(** The text of a key that starts with [sk-] after [trim]. *)
Lemma trimEnd_sk rest : Js.trimEnd ("sk-" +:+ rest) = "sk-" +:+ Js.trimEnd rest.
Proof. rewrite !JsFacts.append_cons. by rewrite !TrimFacts.trimEnd_cons. Qed.

Lemma trim_sk rest : Js.trim ("sk-" +:+ rest) = "sk-" +:+ Js.trimEnd rest.
Proof.
  unfold Js.trim. change (Js.trimStart ("sk-" +:+ rest)) with ("sk-" +:+ rest).
  apply trimEnd_sk.
Qed.

Lemma trimmed_sk rest : Js.trim ("sk-" +:+ Js.trimEnd rest) = "sk-" +:+ Js.trimEnd rest.
Proof. by rewrite trim_sk, TrimFacts.trimEnd_idempotent. Qed.

(** What [handleSubmit] hands to [onSubmit]. *)
Lemma modal_handleSubmit_cases st :
  (exists rest, ApiKeyModal.apiKey st = "sk-" +:+ rest /\
                ApiKeyModal.handleSubmit st = (st, Some ("sk-" +:+ Js.trimEnd rest))) \/
  (Js.startsWith "sk-" (ApiKeyModal.apiKey st) = false /\
   exists msg, msg <> "" /\
     ApiKeyModal.handleSubmit st = (ApiKeyModal.setError msg st, None)).
Proof.
  unfold ApiKeyModal.handleSubmit.
  destruct (Js.startsWith "sk-" (ApiKeyModal.apiKey st)) eqn:Hsk.
  - left. destruct (startsWith_sk _ Hsk) as [rest Hrest]. exists rest. split; [done|].
    rewrite Hrest, trim_sk. reflexivity.
  - right. split; [done|].
    destruct (negb (Js.truthy (Js.trim (ApiKeyModal.apiKey st)))); cbn [negb];
      eexists; (split; [|reflexivity]); discriminate.
Qed.

End ApiKeyFacts.


(** X9: the dialog accepts exactly the inputs that start with [sk-]
    (inputs being texts of code units below 256, the alphabet of [Js]).
    For such an input it hands to [onSubmit] the input without its
    trailing white space: a text that starts with [sk-], that [trim]
    leaves as it is, and that every later check for a present key
    accepts; the state of the dialog is left as it is, so an error shown
    by an earlier attempt is not cleared.  Any other input (an empty one,
    one with leading white space, one with another prefix) is not
    submitted, and the dialog shows an error and keeps the input. *)
Theorem modal_accepts_exactly_sk_keys (st : ApiKeyModal.State) :
  match snd (ApiKeyModal.handleSubmit st) with
  | Some key =>
      Js.startsWith "sk-" (ApiKeyModal.apiKey st) = true /\
      key = Js.trimEnd (ApiKeyModal.apiKey st) /\
      Js.startsWith "sk-" key = true /\
      Js.trim key = key /\
      key_present (Some key) = Some key /\
      fst (ApiKeyModal.handleSubmit st) = st /\
      ApiKeyModal.error (fst (ApiKeyModal.handleSubmit st)) = ApiKeyModal.error st
  | None =>
      Js.startsWith "sk-" (ApiKeyModal.apiKey st) = false /\
      ApiKeyModal.error (fst (ApiKeyModal.handleSubmit st)) <> "" /\
      ApiKeyModal.apiKey (fst (ApiKeyModal.handleSubmit st)) = ApiKeyModal.apiKey st
  end.
Proof.
  destruct (ApiKeyFacts.modal_handleSubmit_cases st) as [(rest & Hst & ->)|(Hsk & msg & Hmsg & ->)];
    cbn [fst snd].
  - rewrite Hst. split; [apply JsFacts.startsWith_append|].
    split; [by rewrite ApiKeyFacts.trimEnd_sk|].
    split; [apply JsFacts.startsWith_append|]. split; [apply ApiKeyFacts.trimmed_sk|].
    split; [reflexivity|]. split; reflexivity.
  - done.
Qed.

(** X10: the page never leaves a user without a key outside the dialog.
    From the mounted page and through any clicks, keystrokes, submissions
    and cancellations, whenever no key is present the dialog is open and
    the upload area is not shown: the dialog cannot be dismissed before a
    key has been accepted.  The key of the page is the one the storage
    holds, and it is either the one found at mount or one that starts
    with [sk-]. *)
Theorem home_page_requires_a_key
    (storage : gmap string string) (events : list HomePage.Event) :
  let st := foldl HomePage.handle (HomePage.mount storage) events in
  let key := ApiKeyContext.apiKey (HomePage.context st) in
  (HomePage.shows_upload st = false -> HomePage.isApiKeyModalOpen st = true) /\
  key = ApiKeyContext.localStorage (HomePage.context st) !! ApiKeyContext.API_KEY_STORAGE_KEY /\
  (key = storage !! ApiKeyContext.API_KEY_STORAGE_KEY \/
   exists k, key = Some k /\ Js.startsWith "sk-" k = true /\
             HomePage.shows_upload st = true).
Proof.
  cbn zeta. induction events as [|e events IH] using rev_ind.
  - cbn. unfold HomePage.shows_upload, HomePage.mount. cbn.
    split_and!; [|done|by left]. by destruct (key_present _).
  - rewrite foldl_snoc.
    remember (foldl HomePage.handle (HomePage.mount storage) events) as st eqn:Est.
    clear Est. destruct IH as (Hopen & Hstored & Hkey).
    unfold HomePage.shows_upload in *.
    pose proof (conj Hopen (conj Hstored Hkey)) as Hsame.
    destruct e; cbn [HomePage.handle].
    + destruct (HomePage.isApiKeyModalOpen st) eqn:Ho; [rewrite Ho; exact Hsame|].
      cbn. split_and!; [done|exact Hstored|exact Hkey].
    + destruct (HomePage.isApiKeyModalOpen st) eqn:Ho; [|rewrite Ho; exact Hsame].
      cbn. split_and!; [done|exact Hstored|exact Hkey].
    + destruct (HomePage.isApiKeyModalOpen st) eqn:Ho; [|rewrite Ho; exact Hsame].
      destruct (ApiKeyFacts.modal_handleSubmit_cases (HomePage.modal st))
        as [(rest & Hst & ->)|(Hsk & msg & Hmsg & ->)].
      * cbn [HomePage.context HomePage.isApiKeyModalOpen ApiKeyContext.setApiKey
               ApiKeyContext.apiKey ApiKeyContext.localStorage].
        rewrite lookup_insert_eq. split_and!; [done|done|].
        right. eexists. split_and!; [reflexivity|apply JsFacts.startsWith_append|reflexivity].
      * cbn [HomePage.context HomePage.isApiKeyModalOpen].
        split_and!; [done|exact Hstored|exact Hkey].
    + destruct (HomePage.isApiKeyModalOpen st) eqn:Ho; [|rewrite Ho; exact Hsame].
      destruct (key_present (ApiKeyContext.apiKey (HomePage.context st))) eqn:Hp;
        [|rewrite Hp, Ho; exact Hsame].
      cbn [HomePage.context HomePage.isApiKeyModalOpen]. rewrite Hp.
      split_and!; [done|exact Hstored|exact Hkey].
Qed.

(** ** The conversation over a whole session *)

Module ConversationFacts.
Import ChatInterface.

Lemma handleAll_app cbs1 cbs2 st :
  handleAll (cbs1 ++ cbs2) st = handleAll cbs2 (handleAll cbs1 st).
Proof. unfold handleAll. by rewrite fold_left_app. Qed.

Lemma contents_app h refs1 refs2 :
  contents h (refs1 ++ refs2) = contents h refs1 ++ contents h refs2.
Proof.
  unfold contents. induction refs1 as [|r refs1 IH]; [done|].
  cbn. destruct (h !! r); cbn; by rewrite IH.
Qed.

(** References [0 .. length h - 1] spell the store itself. *)
Lemma contents_all h : contents h (seq 0 (length h)) = h.
Proof.
  induction h as [|x h IH] using rev_ind; [done|].
  rewrite length_app, seq_app, contents_app. cbn [length seq Nat.add].
  rewrite ChatFacts.contents_app_store, IH.
  - unfold contents. cbn. by rewrite list_lookup_middle.
  - apply Forall_forall. intros r Hr. apply elem_of_seq in Hr. lia.
Qed.

Lemma turns_S n : ChatSession.turns (S n) = ChatSession.turns n ++ [user; assistant].
Proof.
  unfold ChatSession.turns. induction n as [|n IH]; [done|].
  change (mjoin (replicate (S (S n)) [user; assistant]))
    with ([user; assistant] ++ mjoin (replicate (S n) [user; assistant])).
  rewrite IH at 1. reflexivity.
Qed.

Lemma updateLast_cases f st :
  updateLast f st = store st \/
  exists r m, last (messages st) = Some r /\ store st !! r = Some m /\
              msg_role m = assistant /\ updateLast f st = <[r := f m]> (store st).
Proof.
  unfold updateLast. destruct (last (messages st)) as [r|]; [|by left].
  destruct (store st !! r) as [m|] eqn:Hm; [|by left].
  destruct (msg_role m) eqn:Hrole; [by left|]. right. by exists r, m.
Qed.

Lemma updateLast_roles f st :
  (forall m, msg_role (f m) = msg_role m) ->
  msg_role <$> updateLast f st = msg_role <$> store st.
Proof.
  intros Hf. destruct (updateLast_cases f st) as [->|(r & m & _ & Hm & _ & ->)]; [done|].
  rewrite list_fmap_insert, Hf. apply list_insert_id. by rewrite list_lookup_fmap, Hm.
Qed.

Lemma updateLast_user f st r m :
  store st !! r = Some m -> msg_role m = user -> updateLast f st !! r = Some m.
Proof.
  intros Hm Hrole.
  destruct (updateLast_cases f st) as [->|(r' & m' & _ & Hm' & Hrole' & ->)]; [done|].
  destruct (decide (r = r')) as [->|Hne]; [|by rewrite list_lookup_insert_ne].
  rewrite Hm in Hm'. injection Hm' as <-. congruence.
Qed.

Lemma act_roles st a : msg_role <$> store (act st a) = msg_role <$> store st.
Proof.
  destruct a as [[event| |]| |]; cbn; try done.
  - unfold handleEvent. repeat case_match; cbn; try done; by apply updateLast_roles.
  - unfold handleStopStreaming. by case_match.
Qed.

Lemma act_user st a r m :
  store st !! r = Some m -> msg_role m = user -> store (act st a) !! r = Some m.
Proof.
  intros Hm Hrole. destruct a as [[event| |]| |]; cbn; try done.
  - unfold handleEvent. repeat case_match; cbn; try done; by apply updateLast_user.
  - unfold handleStopStreaming. by case_match.
Qed.

(** What [handleSubmit] does: nothing, or the question and an empty
    answer appended. *)
Lemma chat_handleSubmit_cases apiKey fileId st :
  handleSubmit apiKey fileId st = (st, None) \/
  exists st' request key,
    handleSubmit apiKey fileId st = (st', Some (request, key)) /\
    Js.trim (input st) <> "" /\
    isStreaming st = false /\
    key_present apiKey = Some key /\
    isStreaming st' = true /\ abortStreamRef st' = true /\ error st' = None /\
    currentSources st' = [] /\
    request = {| cr_file_id := fileId; cr_message := Js.trim (input st);
                 cr_history := rendered st |} /\
    store st' = store st ++
      [{| msg_role := user; msg_content := Js.trim (input st); msg_sources := None |};
       {| msg_role := assistant; msg_content := ""; msg_sources := Some [] |}] /\
    messages st' = messages st ++ [length (store st); S (length (store st))].
Proof.
  unfold handleSubmit. destruct (key_present apiKey) as [key|]; [|by left].
  unfold Js.truthy. destruct (String.eqb_spec (Js.trim (input st)) "") as [He|Hne];
    [by left|].
  destruct (isStreaming st); [by left|]. right.
  eexists _, _, _. split; [reflexivity|]. cbn. done.
Qed.

(** The invariant of a session that starts from the empty conversation. *)
Lemma session_invariant steps :
  let st := foldl ChatSession.step initial steps in
  messages st = seq 0 (length (store st)) /\
  (exists n, msg_role <$> store st = ChatSession.turns n) /\
  Forall (fun m => msg_role m = user -> msg_content m <> "" /\ msg_sources m = None)
         (store st).
Proof.
  cbn zeta. induction steps as [|s steps IH] using rev_ind.
  - cbn. split_and!; [done|by exists 0|done].
  - rewrite foldl_snoc.
    remember (foldl ChatSession.step initial steps) as st eqn:Est. clear Est.
    destruct IH as (Hrefs & [n Hroles] & Husers).
    destruct s as [apiKey fileId|a]; cbn [ChatSession.step].
    + destruct (chat_handleSubmit_cases apiKey fileId st)
        as [->|(st' & request & key & -> & Hne & _ & _ & _ & _ & _ & _ & _ & Hstore & Hmsgs)];
        cbn [fst]; [by eauto|].
      rewrite Hstore, Hmsgs, Hrefs. split_and!.
      * rewrite length_app, seq_app. reflexivity.
      * exists (S n). by rewrite fmap_app, Hroles, turns_S.
      * apply Forall_app. split; [done|].
        repeat constructor; cbn; done.
    + rewrite ChatFacts.act_messages, ChatFacts.act_store_length, act_roles.
      split_and!; [done|by eauto|].
      apply Forall_lookup. intros r m Hm Hrole.
      assert (is_Some (store st !! r)) as [m0 Hm0].
      { apply lookup_lt_is_Some. rewrite <- (ChatFacts.act_store_length st a).
        by eapply lookup_lt_Some. }
      assert (msg_role m0 = user) as Hrole0.
      { assert (msg_role <$> (store (act st a) !! r) = msg_role <$> (store st !! r)) as Heq
          by (by rewrite <- !list_lookup_fmap, act_roles).
        rewrite Hm, Hm0 in Heq. cbn in Heq. congruence. }
      rewrite (act_user st a r m0 Hm0 Hrole0) in Hm. injection Hm as <-.
      by eapply (Forall_lookup_1 _ _ _ _ Husers).
Qed.

(** The state after the content events of an answer. *)
Lemma content_events_state tokens st a m :
  last (messages st) = Some a ->
  store st !! a = Some m ->
  msg_role m = assistant ->
  let st1 := handleAll (map (fun t => onMessage (Wire.content_event t)) tokens) st in
  store st1 = <[a := {| msg_role := assistant;
                        msg_content := msg_content m +:+ Js.concat tokens;
                        msg_sources := msg_sources m |}]> (store st) /\
  messages st1 = messages st /\ isStreaming st1 = isStreaming st /\
  currentSources st1 = currentSources st /\ error st1 = error st.
Proof.
  revert st m. induction tokens as [|t tokens IH]; intros st m Hlast Hm Hrole.
  - cbn. rewrite JsFacts.append_empty_r. split_and!; try done.
    symmetry. apply list_insert_id. rewrite Hm. destruct m; cbn in *. by subst.
  - set (m1 := {| msg_role := assistant; msg_content := msg_content m +:+ t;
                  msg_sources := msg_sources m |}).
    assert (store (handle (onMessage (Wire.content_event t)) st) = <[a := m1]> (store st))
      as Hstore.
    { cbn. unfold updateLast. by rewrite Hlast, Hm, Hrole. }
    unfold handleAll in *. cbn [map fold_left].
    destruct (IH (handle (onMessage (Wire.content_event t)) st) m1) as (Hs & Hrest).
    + exact Hlast.
    + rewrite Hstore. apply list_lookup_insert_eq. by eapply lookup_lt_Some.
    + reflexivity.
    + cbn zeta. rewrite Hs, Hstore, list_insert_insert_eq.
      split; [|exact Hrest]. cbn. by rewrite JsFacts.append_assoc.
Qed.

End ConversationFacts.

(** X11: a conversation is made of whole turns.  From the empty
    conversation and through any submissions, stream callbacks, keystrokes
    and stops, in any order, the displayed conversation is a sequence of
    turns: a question, whose text is not empty and which has no sources,
    followed by its answer.  Hence the history sent with every accepted
    question is such a sequence too. *)
Theorem conversation_is_made_of_turns (steps : list ChatSession.Step) :
  let st := foldl ChatSession.step ChatInterface.initial steps in
  ChatInterface.rendered st = ChatInterface.store st /\
  (exists n, msg_role <$> ChatInterface.rendered st = ChatSession.turns n) /\
  Forall (fun m => msg_role m = user -> msg_content m <> "" /\ msg_sources m = None)
         (ChatInterface.rendered st) /\
  (forall apiKey fileId st' request key,
     ChatInterface.handleSubmit apiKey fileId st = (st', Some (request, key)) ->
     exists n, msg_role <$> cr_history request = ChatSession.turns n /\
               msg_role <$> ChatInterface.rendered st' = ChatSession.turns (S n)).
Proof.
  cbn zeta.
  destruct (ConversationFacts.session_invariant steps) as (Hrefs & [n Hroles] & Husers).
  assert (ChatInterface.rendered (foldl ChatSession.step ChatInterface.initial steps)
          = ChatInterface.store (foldl ChatSession.step ChatInterface.initial steps)) as Hr.
  { unfold ChatInterface.rendered. rewrite Hrefs. apply ConversationFacts.contents_all. }
  rewrite Hr. split_and!; [done|by eauto|done|].
  intros apiKey fileId st' request key Hsub.
  destruct (ConversationFacts.session_invariant (steps ++ [ChatSession.Submit apiKey fileId]))
    as (Hrefs' & [n' Hroles'] & _).
  rewrite foldl_snoc in Hrefs', Hroles'. cbn [ChatSession.step] in Hrefs', Hroles'.
  rewrite Hsub in Hrefs', Hroles'. cbn [fst] in Hrefs', Hroles'.
  destruct (ChatFacts.handleSubmit_accepted _ _ _ _ _ _ Hsub) as (_ & -> & Hstore & _ & _).
  cbn [cr_history]. rewrite Hr. exists n. split; [done|].
  unfold ChatInterface.rendered. rewrite Hrefs', ConversationFacts.contents_all.
  by rewrite Hstore, fmap_app, Hroles, ConversationFacts.turns_S.
Qed.

(** ** From the submission to the displayed answer *)

Module AnswerFacts.
Import ChatInterface.

Lemma lookup_turn_answer (h : list ChatMessage) u a :
  (h ++ [u; a]) !! S (length h) = Some a.
Proof.
  rewrite lookup_app_r by lia. by replace (S (length h) - length h) with 1 by lia.
Qed.

Lemma insert_turn_answer (h : list ChatMessage) u a a' :
  <[S (length h) := a']> (h ++ [u; a]) = h ++ [u; a'].
Proof.
  rewrite insert_app_r_alt by lia. by replace (S (length h) - length h) with 1 by lia.
Qed.

Lemma contents_turn h refs u a :
  Forall (fun r => r < length h) refs ->
  contents (h ++ [u; a]) (refs ++ [length h; S (length h)]) = contents h refs ++ [u; a].
Proof.
  intros Hwf. rewrite ConversationFacts.contents_app, ChatFacts.contents_app_store by done.
  assert (contents (h ++ [u; a]) [length h; S (length h)] = [u; a]) as ->; [|done].
  unfold contents. cbn [omap list_omap]. rewrite list_lookup_middle by done.
  by rewrite lookup_turn_answer.
Qed.

Lemma last_turn (refs : list nat) n : last (refs ++ [n; S n]) = Some (S n).
Proof. change (refs ++ [n; S n]) with (refs ++ [n] ++ [S n]). by rewrite app_assoc, last_snoc. Qed.

End AnswerFacts.

(** X12: from the question to the displayed answer.  When a question
    is accepted, the server-resident client sends it with the conversation
    so far; and when the server answers with the tokens of the answer, the
    sources and the end marker, then however the network cuts that text
    into reads, the conversation ends up as it was before, followed by the
    question and by an answer whose text is the tokens joined in order and
    whose sources are the ones sent.  The streaming flag is down, the
    sources panel shows the same sources and no error is shown. *)
Theorem streamed_answer_is_displayed
    (JSON_parse : string -> option StreamEvent) (payload : StreamEvent -> string)
    (apiKey : option string) (fileId : string) (st st' : ChatInterface.State)
    (request : ChatRequest) (key : string) (status : N)
    (tokens : list string) (sources : list ChatSource) (chunks : list string) :
  let events := map Wire.content_event tokens ++ [Wire.sources_event sources] in
  ChatInterface.well_formed st ->
  ChatInterface.handleSubmit apiKey fileId st = (st', Some (request, key)) ->
  Forall (Wire.well_encoded JSON_parse payload) events ->
  Js.concat chunks = Wire.body_text payload events ->
  let r := ApiClient.streamChat JSON_parse patient request key
             (FetchResponse true status
                (Some {| body_chunks := chunks; body_failure := None |})) in
  let final := ChatInterface.handleAll (snd r) st' in
  fst r = [POST_chat_stream
             {| cr_file_id := fileId; cr_message := Js.trim (ChatInterface.input st);
                cr_history := ChatInterface.rendered st |} key] /\
  ChatInterface.rendered final =
    ChatInterface.rendered st
      ++ [{| msg_role := user; msg_content := Js.trim (ChatInterface.input st);
             msg_sources := None |};
          {| msg_role := assistant; msg_content := Js.concat tokens;
             msg_sources := Some sources |}] /\
  ChatInterface.isStreaming final = false /\
  ChatInterface.currentSources final = sources /\
  ChatInterface.error final = None.
Proof.
  intros events Hwf Hsub Hall Hbody. cbn zeta.
  unfold ApiClient.streamChat. rewrite api_afterFetch_ok.
  rewrite (api_delivers_in_order JSON_parse payload events chunks Hall Hbody).
  cbn [fst snd].
  destruct (ConversationFacts.chat_handleSubmit_cases apiKey fileId st)
    as [Hno|(st2 & request2 & key2 & Hsub2 & _ & _ & _ & _ & _ & Herr & Hsrc & Hreq
             & Hstore & Hmsgs)];
    [rewrite Hsub in Hno; discriminate|].
  rewrite Hsub in Hsub2. injection Hsub2 as <- <- <-.
  split; [by rewrite Hreq|].
  set (a0 := {| msg_role := assistant; msg_content := ""; msg_sources := Some [] |}) in *.
  set (u := {| msg_role := user; msg_content := Js.trim (ChatInterface.input st);
               msg_sources := None |}) in *.
  assert (last (ChatInterface.messages st') = Some (S (length (ChatInterface.store st))))
    as Hlast by (rewrite Hmsgs; apply AnswerFacts.last_turn).
  assert (ChatInterface.store st' !! S (length (ChatInterface.store st)) = Some a0) as Ha0
    by (rewrite Hstore; apply AnswerFacts.lookup_turn_answer).
  destruct (ConversationFacts.content_events_state tokens st' _ a0 Hlast Ha0 eq_refl)
    as (Hs1 & Hm1 & Hi1 & Hc1 & He1).
  unfold events. rewrite map_app, map_map, <- app_assoc, ConversationFacts.handleAll_app.
  remember (ChatInterface.handleAll
              (map (fun t => onMessage (Wire.content_event t)) tokens) st') as st1 eqn:Est1.
  clear Est1. cbn [map app].
  rewrite Hstore, AnswerFacts.insert_turn_answer in Hs1. cbn [msg_content msg_sources a0] in Hs1.
  assert (ChatInterface.updateLast
            (fun m => {| msg_role := msg_role m; msg_content := msg_content m;
                         msg_sources := Some sources |}) st1
          = ChatInterface.store st ++
              [u; {| msg_role := assistant; msg_content := Js.concat tokens;
                     msg_sources := Some sources |}]) as Hupd.
  { unfold ChatInterface.updateLast. rewrite Hm1, Hlast, Hs1, AnswerFacts.lookup_turn_answer.
    cbn [msg_role]. by rewrite AnswerFacts.insert_turn_answer. }
  unfold ChatInterface.handleAll. cbn [fold_left ChatInterface.handle].
  unfold ChatInterface.handleEvent.
  change (String.eqb (ev_type (Wire.sources_event sources)) "content") with false.
  change (String.eqb (ev_type (Wire.sources_event sources)) "sources") with true.
  cbn [ev_sources Wire.sources_event default]. rewrite Hupd.
  unfold ChatInterface.rendered, ChatInterface.setIsStreaming.
  cbn [ChatInterface.store ChatInterface.messages ChatInterface.isStreaming
       ChatInterface.currentSources ChatInterface.error].
  rewrite Hm1, Hmsgs, AnswerFacts.contents_turn by exact Hwf.
  split_and!; [reflexivity|reflexivity|reflexivity|by rewrite He1].
Qed.

Lemma streamed_answer_is_displayed_witness :
  let st := ChatInterface.setInput " why? " ChatInterface.initial in
  let r := ApiClient.streamChat Wire.parse_known patient
             {| cr_file_id := "f1"; cr_message := "why?"; cr_history := [] |} "sk-key"
             (FetchResponse true 200
                (Some {| body_chunks := ["data: " +:+ Wire.json_content "A" +:+ Wire.nl;
                                         Wire.nl +:+ Wire.sse (Wire.json_content "B")
                                           +:+ "data: " +:+ Wire.json_sources_head;
                                         Wire.json_sources_tail +:+ Wire.nl +:+ Wire.nl
                                           +:+ Wire.sse "[DONE]"];
                         body_failure := None |})) in
  let final :=
    ChatInterface.handleAll (snd r)
      (fst (ChatInterface.handleSubmit (Some "sk-key") "f1" st)) in
  fst r = [POST_chat_stream
             {| cr_file_id := "f1"; cr_message := Js.trim (ChatInterface.input st);
                cr_history := ChatInterface.rendered st |} "sk-key"] /\
  ChatInterface.rendered final =
    ChatInterface.rendered st
      ++ [{| msg_role := user; msg_content := Js.trim (ChatInterface.input st);
             msg_sources := None |};
          {| msg_role := assistant; msg_content := Js.concat ["A"; "B"];
             msg_sources := Some [Wire.one_source] |}] /\
  ChatInterface.isStreaming final = false /\
  ChatInterface.currentSources final = [Wire.one_source] /\
  ChatInterface.error final = None.
Proof.
  apply (streamed_answer_is_displayed Wire.parse_known Wire.encode_known
           (Some "sk-key") "f1" (ChatInterface.setInput " why? " ChatInterface.initial)
           _ _ "sk-key" 200 ["A"; "B"] [Wire.one_source]).
  - constructor.
  - reflexivity.
  - repeat constructor; by vm_compute.
  - by vm_compute.
Defined.

(** ** One question at a time *)

Module FlightFacts.
Import ChatInterface.

(** Events and keystrokes leave the streaming flag and the abort
    function where they are. *)
Lemma keeps_streaming_flags a st :
  ChatSession.keeps_streaming a = true ->
  isStreaming (act st a) = isStreaming st /\ abortStreamRef (act st a) = abortStreamRef st.
Proof.
  destruct a as [[event| |]| |]; try discriminate; intros _; cbn; [|done].
  unfold handleEvent. by repeat case_match.
Qed.

Lemma in_flight actions st :
  forallb ChatSession.keeps_streaming actions = true ->
  isStreaming (fold_left act actions st) = isStreaming st /\
  abortStreamRef (fold_left act actions st) = abortStreamRef st.
Proof.
  revert st. induction actions as [|a actions IH]; intros st Hall; [done|].
  cbn in Hall. apply andb_true_iff in Hall as [Ha Hall]. cbn [fold_left].
  destruct (IH (act st a) Hall) as [-> ->]. by apply keeps_streaming_flags.
Qed.

Lemma handleSubmit_streaming apiKey fileId st :
  isStreaming st = true -> handleSubmit apiKey fileId st = (st, None).
Proof.
  intros Hs. unfold handleSubmit. destruct (key_present apiKey); [|done].
  by rewrite Hs, orb_true_r.
Qed.

End FlightFacts.

(** X13: one question at a time.  After an accepted question, while
    only events arrive and the user types, the question stays in flight
    and every further submission is refused: it sends nothing and changes
    nothing.  The first completion, failure or stop ends the flight, and a
    question with a text and a key is accepted again. *)
Theorem one_question_in_flight
    (apiKey : option string) (fileId : string) (st st' : ChatInterface.State)
    (request : ChatRequest) (key : string) (actions : list ChatInterface.Action) :
  ChatInterface.handleSubmit apiKey fileId st = (st', Some (request, key)) ->
  forallb ChatSession.keeps_streaming actions = true ->
  let later := fold_left ChatInterface.act actions st' in
  ChatInterface.isStreaming later = true /\
  (forall apiKey2 fileId2,
     ChatInterface.handleSubmit apiKey2 fileId2 later = (later, None)) /\
  (forall a value apiKey2 fileId2 key2,
     ChatSession.keeps_streaming a = false ->
     Js.trim value <> "" ->
     key_present apiKey2 = Some key2 ->
     let ended := ChatInterface.act later a in
     ChatInterface.isStreaming ended = false /\
     exists st2 request2,
       ChatInterface.handleSubmit apiKey2 fileId2 (ChatInterface.setInput value ended)
         = (st2, Some (request2, key2)) /\
       cr_message request2 = Js.trim value /\
       cr_history request2 = ChatInterface.rendered ended).
Proof.
  intros Hsub Hall. cbn zeta.
  destruct (ConversationFacts.chat_handleSubmit_cases apiKey fileId st)
    as [Hno|(st2 & request2 & key2 & Hsub2 & _ & _ & _ & Hs & Hab & _)];
    [rewrite Hsub in Hno; discriminate|].
  rewrite Hsub in Hsub2. injection Hsub2 as <- <- <-.
  destruct (FlightFacts.in_flight actions st' Hall) as [Hs' Hab'].
  rewrite Hs in Hs'. rewrite Hab in Hab'.
  split; [done|]. split; [intros; by apply FlightFacts.handleSubmit_streaming|].
  intros a value apiKey2 fileId2 key2 Ha Hvalue Hkey2.
  remember (fold_left ChatInterface.act actions st') as later eqn:El. clear El.
  assert (ChatInterface.isStreaming (ChatInterface.act later a) = false) as Hended.
  { destruct a as [[event| |]| |]; try discriminate; cbn; try done.
    unfold ChatInterface.handleStopStreaming. by rewrite Hab'. }
  split; [done|].
  unfold ChatInterface.handleSubmit. rewrite Hkey2. cbn [ChatInterface.setInput
    ChatInterface.input ChatInterface.isStreaming]. rewrite Hended, orb_false_r.
  unfold Js.truthy. destruct (String.eqb_spec (Js.trim value) "") as [He|_]; [done|].
  cbn [negb]. eexists _, _. split; [reflexivity|]. done.
Qed.

Lemma one_question_in_flight_witness :
  let st' :=
    fst (ChatInterface.handleSubmit (Some "sk-key") "f1"
           (ChatInterface.setInput "why?" ChatInterface.initial)) in
  let later :=
    fold_left ChatInterface.act
      [ChatInterface.Deliver (onMessage (Wire.content_event "A"));
       ChatInterface.Typing "and then?"] st' in
  ChatInterface.isStreaming later = true /\
  (forall apiKey2 fileId2,
     ChatInterface.handleSubmit apiKey2 fileId2 later = (later, None)) /\
  (forall a value apiKey2 fileId2 key2,
     ChatSession.keeps_streaming a = false ->
     Js.trim value <> "" ->
     key_present apiKey2 = Some key2 ->
     let ended := ChatInterface.act later a in
     ChatInterface.isStreaming ended = false /\
     exists st2 request2,
       ChatInterface.handleSubmit apiKey2 fileId2 (ChatInterface.setInput value ended)
         = (st2, Some (request2, key2)) /\
       cr_message request2 = Js.trim value /\
       cr_history request2 = ChatInterface.rendered ended).
Proof.
  apply (one_question_in_flight (Some "sk-key") "f1"
           (ChatInterface.setInput "why?" ChatInterface.initial)
           (fst (ChatInterface.handleSubmit (Some "sk-key") "f1"
                   (ChatInterface.setInput "why?" ChatInterface.initial)))
           {| cr_file_id := "f1"; cr_message := "why?"; cr_history := [] |} "sk-key"
           [ChatInterface.Deliver (onMessage (Wire.content_event "A"));
            ChatInterface.Typing "and then?"]); reflexivity.
Defined.

(** ** What the upload area submits *)

Module UploadFacts.

(** [Array.prototype.find]: the first element that satisfies [p]. *)
Lemma find_first {A : Type} (p : A -> bool) (l : list A) (x : A) :
  List.find p l = Some x ->
  p x = true /\
  exists before after, l = before ++ x :: after /\ Forall (fun y => p y = false) before.
Proof.
  induction l as [|y l IH]; [discriminate|]. cbn [List.find].
  destruct (p y) eqn:Hy.
  - intros [= <-]. split; [done|]. by exists [], l.
  - intros Hx. destruct (IH Hx) as (Hp & before & after & -> & Hb). split; [done|].
    exists (y :: before), after. split; [done|]. by constructor.
Qed.

(** What [handleFileUpload] lets through. *)
Lemma handleFileUpload_cases apiKey file st :
  match snd (PDFUpload.handleFileUpload apiKey file st) with
  | Some (file', key) =>
      file' = file /\ key_present apiKey = Some key /\
      file_type file = "application/pdf" /\ (file_size file <= PDFUpload.maxSize)%Z /\
      PDFUpload.isUploading (fst (PDFUpload.handleFileUpload apiKey file st)) = true /\
      PDFUpload.error (fst (PDFUpload.handleFileUpload apiKey file st)) = None /\
      PDFUpload.isDragging (fst (PDFUpload.handleFileUpload apiKey file st))
        = PDFUpload.isDragging st
  | None =>
      (exists msg, PDFUpload.error (fst (PDFUpload.handleFileUpload apiKey file st)) = Some msg) /\
      PDFUpload.isUploading (fst (PDFUpload.handleFileUpload apiKey file st))
        = PDFUpload.isUploading st /\
      PDFUpload.isDragging (fst (PDFUpload.handleFileUpload apiKey file st))
        = PDFUpload.isDragging st
  end.
Proof.
  unfold PDFUpload.handleFileUpload.
  destruct (key_present apiKey) as [key|]; [|cbn; by eauto].
  destruct (String.eqb_spec (file_type file) "application/pdf") as [Ht|Ht];
    cbn [negb]; [|cbn; by eauto].
  destruct (Z.gtb_spec (file_size file) PDFUpload.maxSize) as [Hs|Hs]; [cbn; by eauto|].
  cbn [fst snd PDFUpload.isUploading PDFUpload.error PDFUpload.isDragging]. done.
Qed.

End UploadFacts.

(** X14: whatever is dropped on the upload area or chosen in the file
    dialog, a file is submitted only if its declared type is
    [application/pdf], its size is at most 10 MB and a key is present.
    A drop submits the first PDF among the dropped files, a selection the
    first chosen file, and nothing else; a drop or selection that submits
    nothing shows an error, unless the selection is empty.  A drop always
    ends the dragging state. *)
Theorem uploads_are_valid_pdfs
    (apiKey : option string) (files : list File) (st : PDFUpload.State) :
  let dropped := PDFUpload.handleDrop apiKey files st in
  let selected := PDFUpload.handleFileSelect apiKey files st in
  PDFUpload.isDragging (fst dropped) = false /\
  match snd dropped with
  | Some (file, key) =>
      (exists before after,
         files = before ++ file :: after /\
         Forall (fun f => file_type f <> "application/pdf") before) /\
      file_type file = "application/pdf" /\
      (file_size file <= 10 * 1024 * 1024)%Z /\
      key_present apiKey = Some key /\
      PDFUpload.isUploading (fst dropped) = true /\
      PDFUpload.error (fst dropped) = None
  | None =>
      (exists msg, PDFUpload.error (fst dropped) = Some msg) /\
      PDFUpload.isUploading (fst dropped) = PDFUpload.isUploading st
  end /\
  match snd selected with
  | Some (file, key) =>
      (exists rest, files = file :: rest) /\
      file_type file = "application/pdf" /\
      (file_size file <= 10 * 1024 * 1024)%Z /\
      key_present apiKey = Some key /\
      PDFUpload.isUploading (fst selected) = true /\
      PDFUpload.error (fst selected) = None
  | None =>
      (files = [] /\ fst selected = st) \/
      (exists msg, PDFUpload.error (fst selected) = Some msg) /\
      PDFUpload.isUploading (fst selected) = PDFUpload.isUploading st
  end.
Proof.
  cbn zeta. split_and!.
  - unfold PDFUpload.handleDrop.
    destruct (List.find _ files) as [pdfFile|]; [|done].
    match goal with |- context [PDFUpload.handleFileUpload apiKey pdfFile ?s] =>
      pose proof (UploadFacts.handleFileUpload_cases apiKey pdfFile s) as H;
      destruct (PDFUpload.handleFileUpload apiKey pdfFile s) as [s' [[f k]|]] end;
      cbn [fst snd] in *; by destruct_and!.
  - unfold PDFUpload.handleDrop.
    destruct (List.find _ files) as [pdfFile|] eqn:Hfind; [|cbn; by eauto].
    apply UploadFacts.find_first in Hfind as (Hpdf & before & after & Hfiles & Hbefore).
    match goal with |- context [PDFUpload.handleFileUpload apiKey pdfFile ?s] =>
      pose proof (UploadFacts.handleFileUpload_cases apiKey pdfFile s) as H;
      destruct (PDFUpload.handleFileUpload apiKey pdfFile s) as [s' [[f k]|]] end;
      cbn [fst snd] in *.
    + destruct H as (-> & Hkey & Ht & Hsize & Hup & Herr & _).
      split_and!; try done. exists before, after. split; [done|].
      eapply Forall_impl; [exact Hbefore|]. intros f Hf Heq. cbn in Hf.
      by rewrite Heq in Hf.
    + by destruct_and!.
  - unfold PDFUpload.handleFileSelect. destruct files as [|file rest]; [by left|].
    pose proof (UploadFacts.handleFileUpload_cases apiKey file st) as H.
    destruct (PDFUpload.handleFileUpload apiKey file st) as [s' [[f k]|]]; cbn [fst snd] in *.
    + destruct H as (-> & Hkey & Ht & Hsize & Hup & Herr & _). split_and!; by eauto.
    + right. by destruct_and!.
Qed.

(** ** A stream that ends without its end marker *)

Module EndFacts.

Section Ends.

Variable JSON_parse : string -> option StreamEvent.
Variable payload : StreamEvent -> string.

Lemma events_lines events :
  Forall (Wire.well_encoded JSON_parse payload) events ->
  removelast (Js.split_nl (Js.concat (map (fun e => Wire.sse (payload e)) events))) =
  flat_map (fun e => ["data: " +:+ payload e; ""]) events.
Proof.
  intros Hall.
  rewrite <- (JsFacts.append_empty_r (Js.concat (map (fun e => Wire.sse (payload e)) events))).
  change (Js.concat (map (fun e => Wire.sse (payload e)) events))
    with (Callbacks.read_of payload events).
  rewrite (ReaderFacts.group_lines JSON_parse payload events "" Hall).
  change (Js.split_nl "") with [""]. apply removelast_last.
Qed.

Lemma api_forLines_events events st :
  Forall (Wire.well_encoded JSON_parse payload) events ->
  aborted st = false ->
  ApiClient.forLines JSON_parse patient
    (flat_map (fun e => ["data: " +:+ payload e; ""]) events) st =
  ({| delivered := delivered st ++ map onMessage events; aborted := false |}, false).
Proof.
  intros Hall. revert st.
  induction Hall as [|e events (Hparse & _ & Htrim & Hmarker & Hempty) _ IH]; intros st Ha.
  { cbn. rewrite app_nil_r. destruct st; cbn in *. by subst. }
  cbn [flat_map app ApiClient.forLines].
  rewrite JsFacts.startsWith_append.
  change 6 with (String.length "data: "). rewrite JsFacts.slice_append, Htrim.
  destruct (String.eqb_spec (payload e) "[DONE]") as [Hm|_]; [done|].
  unfold Js.truthy.
  destruct (String.eqb_spec (payload e) "") as [Hm|_]; [done|].
  cbn [negb]. rewrite Hparse.
  change (Js.startsWith "data: " "") with false. cbn iota.
  rewrite IH by (cbn; by rewrite Ha).
  cbn. by rewrite <- app_assoc.
Qed.

End Ends.

End EndFacts.

(** X15: a stream that stops after whole events, without the end
    marker.  The server-resident client hands over every event, in order,
    and then ends the stream exactly once: with [onComplete] when the body
    simply ends, with [onError] carrying the error of the read when a read
    fails; this too holds however the network cuts the text into reads. *)
Theorem api_stream_ends_once_without_marker
    (JSON_parse : string -> option StreamEvent) (payload : StreamEvent -> string)
    (request : ChatRequest) (apiKey : string) (status : N)
    (events : list StreamEvent) (chunks : list string) (failure : option Error) :
  Forall (Wire.well_encoded JSON_parse payload) events ->
  Js.concat chunks = Js.concat (map (fun e => Wire.sse (payload e)) events) ->
  snd (ApiClient.streamChat JSON_parse patient request apiKey
         (FetchResponse true status
            (Some {| body_chunks := chunks; body_failure := failure |}))) =
  map onMessage events
    ++ [match failure with None => onComplete | Some e => onError e end].
Proof.
  intros Hall Hbody. unfold ApiClient.streamChat. rewrite api_afterFetch_ok. cbn [snd].
  rewrite api_readStream_lines by done.
  change ("" +:+ Js.concat chunks) with (Js.concat chunks).
  rewrite Hbody, (EndFacts.events_lines JSON_parse payload events Hall).
  rewrite (EndFacts.api_forLines_events JSON_parse payload events start Hall eq_refl).
  reflexivity.
Qed.

Lemma api_stream_ends_once_without_marker_witness :
  snd (ApiClient.streamChat Wire.parse_known patient
         {| cr_file_id := "f1"; cr_message := "why?"; cr_history := [] |} "sk-key"
         (FetchResponse true 200
            (Some {| body_chunks := ["data: " +:+ Wire.json_content "A" +:+ Wire.nl;
                                     Wire.nl +:+ "data: " +:+ Wire.json_content "B";
                                     Wire.nl +:+ Wire.nl];
                     body_failure := Some {| error_message := "network error" |} |}))) =
  map onMessage [Wire.content_event "A"; Wire.content_event "B"]
    ++ [onError {| error_message := "network error" |}].
Proof.
  apply (api_stream_ends_once_without_marker Wire.parse_known Wire.encode_known
           {| cr_file_id := "f1"; cr_message := "why?"; cr_history := [] |} "sk-key" 200
           [Wire.content_event "A"; Wire.content_event "B"] _
           (Some {| error_message := "network error" |})).
  - repeat constructor; by vm_compute.
  - by vm_compute.
Defined.
